(** * 2048 board engine: a shallow embedding of [src/lib/game-logic.ts]

    The TypeScript module is a collection of pure functions over
    [Board = number[][]].  Tiles are modelled as [Z] (the game only ever
    stores integers: 0, 2, 4, ... and their doubles), arrays as lists with
    stdpp's lookup [l !! i], a JavaScript read that yields [undefined] as
    [None], and a thrown [TypeError] as [None] in the option monad.  The two
    calls to [Math.random()] of [addRandomTile] are made explicit as two
    rational draws from the interval [0, 1).

    Scores are added in [Z].  JavaScript adds binary64 numbers, and that
    addition is exact as long as the integers involved stay within 2^53 in
    absolute value; every statement that equates a score with a sum is made
    under a bound ([safeRow], [safeBoard]) that keeps all partial sums in
    that range.  Statements about the cells of a board need no bound. *)

From Stdlib Require Import ZArith QArith Qround Lia.
From stdpp Require Import base option list sorting strings gmap.

Local Open Scope Z_scope.

(** ** Data model *)

Abbreviation Tile := Z.
Abbreviation Board := (list (list Z)).

Record GameState := mkState {
  board : Board;
  score : Z;
  gameOver : bool;
  won : bool
}.

Inductive Direction := Up | Down | Left | Right.

(** [board[i][j]]: [None] stands for [undefined]. *)
Definition cellAt (b : Board) (i j : nat) : option Z :=
  b !! i ≫= (.!! j).

(** ** Board construction *)

Definition createEmptyBoard (size : nat) : Board :=
  replicate size (replicate size 0).

(** The inner [row.forEach((cell, j) => ...)] of [getEmptyCells]. *)
Fixpoint emptyInRow (i j : nat) (row : list Z) : list (nat * nat) :=
  match row with
  | [] => []
  | cell :: rest =>
      (if bool_decide (cell = 0) then [(i, j)] else []) ++ emptyInRow i (S j) rest
  end.

(** The outer [board.forEach((row, i) => ...)]. *)
Fixpoint emptyFrom (i : nat) (b : Board) : list (nat * nat) :=
  match b with
  | [] => []
  | row :: rest => emptyInRow i 0 row ++ emptyFrom (S i) rest
  end.

Definition getEmptyCells (b : Board) : list (nat * nat) := emptyFrom 0 b.

(** ** Row reduction *)

(** The first [while] loop of [slideRow].  The index [i] only grows, so
    [length filtered] iterations always suffice; [fuel] is that bound.  Both
    reads [filtered[i]] are guarded by [i < filtered.length].  The sum
    [sc + mergedValue] is the one of the code while the score stays within
    2^53; beyond that the code rounds to binary64. *)
Fixpoint mergeLoop (fuel : nat) (filtered : list Z) (i : nat)
    (merged : list Z) (sc : Z) : list Z * Z :=
  match fuel with
  | O => (merged, sc)
  | S fuel' =>
      if bool_decide (i < length filtered)%nat then
        if bool_decide (i + 1 < length filtered)%nat
           && bool_decide (filtered !! i = filtered !! (i + 1)%nat)
        then
          let mergedValue := default 0 (filtered !! i) * 2 in
          mergeLoop fuel' filtered (i + 2) (merged ++ [mergedValue]) (sc + mergedValue)
        else
          mergeLoop fuel' filtered (i + 1) (merged ++ [default 0 (filtered !! i)]) sc
      else (merged, sc)
  end.

(** [while (merged.length < row.length) merged.push(0)]. *)
Definition padTo (len : nat) (merged : list Z) : list Z :=
  merged ++ replicate (len - length merged) 0.

Definition slideRow (row : list Z) : list Z * Z :=
  let filtered := filter (λ cell, cell ≠ 0) row in
  let '(merged, sc) := mergeLoop (length filtered) filtered 0 [] 0 in
  (padTo (length row) merged, sc).

(** ** Random tile placement *)

(** A draw of [Math.random()]: a number in the interval [0, 1). *)
Definition unitDraw (u : Q) : Prop := (0 <= u)%Q ∧ (u < 1)%Q.

(** [Math.floor(Math.random() * emptyCells.length)]. *)
Definition randomIndex (u : Q) (len : nat) : nat :=
  Z.to_nat (Qfloor (u * inject_Z (Z.of_nat len))).

(** [Math.random() < 0.9 ? 2 : 4]. *)
Definition randomValue (v : Q) : Z :=
  if Qlt_le_dec v (9 # 10) then 2 else 4.

(** [newBoard[row][col] = value] on the copy [board.map(r => [...r])].  The
    coordinates come from [getEmptyCells], so they are in range and the
    assignment never extends an array. *)
Definition setCell (b : Board) (row col : nat) (value : Z) : Board :=
  alter (λ r, <[col := value]> r) row b.

(** [u] is the first draw (position), [v] the second (value).  Destructuring
    [emptyCells[k]] throws when [k] is out of range, which does not happen
    for a draw in [0, 1). *)
Definition addRandomTile (b : Board) (u v : Q) : option Board :=
  let emptyCells := getEmptyCells b in
  if bool_decide (length emptyCells = 0%nat) then Some b
  else
    '(row, col) ← emptyCells !! randomIndex u (length emptyCells);
    let value := randomValue v in
    Some (setCell b row col value).

Definition initializeGame (size : nat) (u1 v1 u2 v2 : Q) : option GameState :=
  b1 ← addRandomTile (createEmptyBoard size) u1 v1;
  b2 ← addRandomTile b1 u2 v2;
  Some {| board := b2; score := 0; gameOver := false; won := false |}.

(** ** Rotation and board comparison *)

(** [board[0].map((_, colIndex) => board.map(row => row[colIndex]).reverse())].
    [board[0]] is [undefined] for the empty board, and [.map] on it throws;
    a row shorter than [board[0]] would put [undefined] into the result,
    which is not a [Board]: both are [None]. *)
Definition rotateBoard (b : Board) : option Board :=
  row0 ← b !! 0%nat;
  mapM (λ colIndex, reverse <$> mapM (λ row : list Z, row !! colIndex) b)
       (seq 0 (length row0)).

(** [Array.prototype.every] with the element index, stopping at the first
    [false]; the callback may throw. *)
Fixpoint everyFrom {A} (f : nat → A → option bool) (i : nat) (l : list A)
    : option bool :=
  match l with
  | [] => Some true
  | x :: rest =>
      ok ← f i x;
      if ok : bool then everyFrom f (S i) rest else Some false
  end.

(** [board2[i][j]] throws when [board2[i]] is undefined; a missing cell
    compares unequal to every number. *)
Definition boardsEqual (board1 board2 : Board) : option bool :=
  everyFrom (λ i row,
    everyFrom (λ j cell,
      row2 ← board2 !! i;
      Some (bool_decide (row2 !! j = Some cell))) 0 row) 0 board1.

(** ** Directional moves *)

(** [board.map] whose callback also adds to the captured [totalScore]
    (exactly, while the total stays within 2^53). *)
Definition moveLeft (b : Board) : Board * Z :=
  foldl (λ acc row,
           let '(newRow, sc) := slideRow row in
           (acc.1 ++ [newRow], acc.2 + sc)) ([], 0) b.

Definition moveRight (b : Board) : Board * Z :=
  foldl (λ acc row,
           let reversed := reverse row in
           let '(newRow, sc) := slideRow reversed in
           (acc.1 ++ [reverse newRow], acc.2 + sc)) ([], 0) b.

Definition moveUp (b : Board) : option (Board * Z) :=
  r1 ← rotateBoard b;
  r2 ← rotateBoard r1;
  rotated ← rotateBoard r2;
  let '(moved, sc) := moveLeft rotated in
  result ← rotateBoard moved;
  Some (result, sc).

Definition moveDown (b : Board) : option (Board * Z) :=
  rotated ← rotateBoard b;
  let '(moved, sc) := moveLeft rotated in
  r1 ← rotateBoard moved;
  r2 ← rotateBoard r1;
  result ← rotateBoard r2;
  Some (result, sc).

(** The [switch] of [makeMove]. *)
Definition applyDirection (b : Board) (d : Direction) : option (Board * Z) :=
  match d with
  | Left => Some (moveLeft b)
  | Right => Some (moveRight b)
  | Up => moveUp b
  | Down => moveDown b
  end.

(** ** End-of-game checks *)

(** The body of the double loop of [canMove] at [(i, j)]; [===] on two
    reads that may both be [undefined] is equality of options. *)
Definition neighbourEqual (b : Board) (size i j : nat) : bool :=
  let current := cellAt b i j in
  (bool_decide (j < size - 1)%nat && bool_decide (current = cellAt b i (j + 1)))
  || (bool_decide (i < size - 1)%nat && bool_decide (current = cellAt b (i + 1) j)).

Definition canMove (b : Board) : bool :=
  if bool_decide (0 < length (getEmptyCells b))%nat then true
  else
    let size := length b in
    existsb (λ i, existsb (λ j, neighbourEqual b size i j) (seq 0 size))
            (seq 0 size).

Definition hasWon (b : Board) : bool :=
  existsb (λ row, existsb (λ cell, bool_decide (2048 ≤ cell)) row) b.

(** ** The transition function *)

(** [newScore] is the sum of the code while it stays within 2^53; board and
    flags do not depend on it. *)
Definition makeMove (state : GameState) (direction : Direction) (u v : Q)
    : option GameState :=
  if gameOver state then Some state
  else
    result ← applyDirection (board state) direction;
    same ← boardsEqual result.1 (board state);
    if same : bool then Some state
    else
      newBoard ← addRandomTile result.1 u v;
      let newScore := score state + result.2 in
      let won' := negb (won state) && hasWon newBoard in
      let gameOver' := negb (canMove newBoard) in
      Some {| board := newBoard; score := newScore;
              gameOver := gameOver'; won := won' |}.

(** ** [addRandomTile] on the JavaScript heap

    The functions above treat boards as values.  That is sound because the
    module never writes to an array it was given; the one assignment,
    [newBoard[row][col] = value], targets the copy made by
    [board.map(r => [...r])].  To state that, arrays get identities: a board
    is a reference to an outer array of references to row arrays. *)

Abbreviation loc := positive.

Inductive obj :=
  | RowObj (cells : list Z)
  | BoardObj (rows : list loc).

Abbreviation heap := (gmap loc obj).

Definition alloc (h : heap) (o : obj) : heap * loc :=
  let l := fresh (dom h) in (<[l := o]> h, l).

Definition readRow (h : heap) (r : loc) : option (list Z) :=
  match h !! r with Some (RowObj cells) => Some cells | _ => None end.

Definition readRows (h : heap) (p : loc) : option (list loc) :=
  match h !! p with Some (BoardObj rows) => Some rows | _ => None end.

(** The board value a reference denotes. *)
Definition readBoard (h : heap) (p : loc) : option Board :=
  rows ← readRows h p; mapM (readRow h) rows.

(** The callback [r => [...r]] applied along the outer array: each row is
    copied into a newly allocated array.  (The order in which the engine
    allocates the copies and the outer array is immaterial here: all of
    them are new.) *)
Fixpoint copyRows (h : heap) (rows : list loc) : option (heap * list loc) :=
  match rows with
  | [] => Some (h, [])
  | r :: rest =>
      cells ← readRow h r;
      let '(h1, r') := alloc h (RowObj cells) in
      '(h2, rest') ← copyRows h1 rest;
      Some (h2, r' :: rest')
  end.

Definition addRandomTileH (h : heap) (p : loc) (u v : Q)
    : option (heap * loc) :=
  b ← readBoard h p;
  let emptyCells := getEmptyCells b in
  if bool_decide (length emptyCells = 0%nat) then Some (h, p)
  else
    '(row, col) ← emptyCells !! randomIndex u (length emptyCells);
    let value := randomValue v in
    rows ← readRows h p;
    '(h1, rows') ← copyRows h rows;
    let '(h2, newBoard) := alloc h1 (BoardObj rows') in
    r ← rows' !! row;
    cells ← readRow h2 r;
    Some (<[r := RowObj (<[col := value]> cells)]> h2, newBoard).

(** ** The [useGame] hook and the handlers wired to it

    [use-game.ts] keeps the board size and the current [GameState] and
    replaces the state through the functions above; [page.tsx] starts it
    with [useGame(4)].  A session is that pair; each handler is the state
    update it performs, with the draws of [Math.random()] it may consume. *)

Record Session := mkSession {
  boardSize : nat;
  gameState : GameState
}.

(** The draws available to one handler call: [initializeGame] uses up to
    four, [makeMove] up to the first two. *)
Record Draws := mkDraws { pos1 : Q; val1 : Q; pos2 : Q; val2 : Q }.

Definition unitDraws (r : Draws) : Prop := unitDraw (pos1 r) ∧ unitDraw (pos2 r).

Definition useGame (initialBoardSize : nat) (r : Draws) : option Session :=
  gs ← initializeGame initialBoardSize (pos1 r) (val1 r) (pos2 r) (val2 r);
  Some {| boardSize := initialBoardSize; gameState := gs |}.

(** [setGameState((prevState) => makeMove(prevState, direction))]. *)
Definition handleMove (ss : Session) (d : Direction) (r : Draws)
    : option Session :=
  gs ← makeMove (gameState ss) d (pos1 r) (val1 r);
  Some {| boardSize := boardSize ss; gameState := gs |}.

(** [setGameState(initializeGame(boardSize))]. *)
Definition handleRestart (ss : Session) (r : Draws) : option Session :=
  gs ← initializeGame (boardSize ss) (pos1 r) (val1 r) (pos2 r) (val2 r);
  Some {| boardSize := boardSize ss; gameState := gs |}.

(** [setBoardSize(newSize); setGameState(initializeGame(newSize))]. *)
Definition handleBoardSizeChange (ss : Session) (newSize : nat) (r : Draws)
    : option Session :=
  gs ← initializeGame newSize (pos1 r) (val1 r) (pos2 r) (val2 r);
  Some {| boardSize := newSize; gameState := gs |}.

(** The [switch (event.key)] of the key handler. *)
Definition keyDirection (key : string) : option Direction :=
  if decide (key = "ArrowUp") then Some Up
  else if decide (key = "ArrowDown") then Some Down
  else if decide (key = "ArrowLeft") then Some Left
  else if decide (key = "ArrowRight") then Some Right
  else None.

(** [handleKeyPress]: nothing happens once the game is over. *)
Definition handleKeyPress (ss : Session) (key : string) (r : Draws)
    : option Session :=
  if gameOver (gameState ss) then Some ss
  else
    match keyDirection key with
    | Some d => handleMove ss d r
    | None => Some ss
    end.

(** [handleSizeChange] of [game-controls.tsx], applied to the result of
    [parseInt(value)]; [None] is [NaN], for which both comparisons are
    false. *)
Definition handleSizeChange (ss : Session) (parsed : option Z) (r : Draws)
    : option Session :=
  match parsed with
  | Some size =>
      if bool_decide (3 ≤ size) && bool_decide (size ≤ 10)
      then handleBoardSizeChange ss (Z.to_nat size) r
      else Some ss
  | None => Some ss
  end.

(** What the page can do to a session: a key press, a tap on one of the
    direction buttons, the New Game button, an edit of the size field. *)
Inductive Event :=
  | KeyDown (key : string)
  | Tap (d : Direction)
  | NewGame
  | SizeInput (parsed : option Z).

Definition dispatch (ss : Session) (e : Event) (r : Draws) : option Session :=
  match e with
  | KeyDown key => handleKeyPress ss key r
  | Tap d => handleMove ss d r
  | NewGame => handleRestart ss r
  | SizeInput parsed => handleSizeChange ss parsed r
  end.

(** A session played through a list of events, from [useGame(4)]. *)
Fixpoint play (ss : Session) (events : list (Event * Draws)) : option Session :=
  match events with
  | [] => Some ss
  | (e, r) :: rest => ss' ← dispatch ss e r; play ss' rest
  end.

Definition playFromStart (r0 : Draws) (events : list (Event * Draws))
    : option Session :=
  ss ← useGame 4 r0; play ss events.

(** ** Specification-side vocabulary *)

Definition sumList (l : list Z) : Z := foldr Z.add 0 l.

(** What one step of the left-to-right scan of the specification emits:
    a value passed through unchanged, or the merge of the pair [x, x]. *)
Inductive emitted := Passed (x : Z) | Merged (x : Z).

Definition emitValue (e : emitted) : Z :=
  match e with Passed x => x | Merged x => x * 2 end.

Definition emitGain (e : emitted) : Z :=
  match e with Passed _ => 0 | Merged x => x * 2 end.

(** The part of an emitted value that reached the output unmerged. *)
Definition emitPassed (e : emitted) : Z :=
  match e with Passed x => x | Merged _ => 0 end.

(** The input tiles an emitted value stands for. *)
Definition emitConsumed (e : emitted) : list Z :=
  match e with Passed x => [x] | Merged x => [x; x] end.

(** Step 2 of the specification of [reduceLine], following its words: at an
    equal adjacent pair emit the double and skip both inputs, otherwise emit
    the value and advance by one. *)
Fixpoint scanPairs (l : list Z) : list emitted :=
  match l with
  | [] => []
  | x :: tl =>
      match tl with
      | [] => [Passed x]
      | y :: rest =>
          if bool_decide (x = y) then Merged x :: scanPairs rest
          else Passed x :: scanPairs tl
      end
  end.

(** [reduceLine] as the specification words it: filter, scan, pad. *)
Definition reduceLine (line : list Z) : list Z * Z :=
  let events := scanPairs (filter (λ cell, cell ≠ 0) line) in
  let out := emitValue <$> events in
  (out ++ replicate (length line - length out) 0, sumList (emitGain <$> events)).

(** An [n]-by-[n] board. *)
Definition isSquare (n : nat) (b : Board) : Prop :=
  length b = n ∧ Forall (λ row, length row = n) b.

(** The move in direction [d] produces a board different from [b]. *)
Definition changesBoard (b : Board) (d : Direction) : Prop :=
  ∃ b' sc, applyDirection b d = Some (b', sc) ∧ b' ≠ b.

Definition hasEmptyCell (b : Board) : Prop :=
  ∃ i j, cellAt b i j = Some 0.

Definition hasEqualRightNeighbour (b : Board) : Prop :=
  ∃ i j x, cellAt b i j = Some x ∧ cellAt b i (S j) = Some x.

Definition hasEqualBottomNeighbour (b : Board) : Prop :=
  ∃ i j x, cellAt b i j = Some x ∧ cellAt b (S i) j = Some x.

(** [b'] is [b] with one empty cell filled by a 2 or a 4, every other
    cell being as before. *)
Definition spawnedFrom (b b' : Board) : Prop :=
  ∃ i j val,
    cellAt b i j = Some 0 ∧ (val = 2 ∨ val = 4)
    ∧ b' = setCell b i j val
    ∧ cellAt b' i j = Some val
    ∧ ∀ i' j', (i', j') ≠ (i, j) → cellAt b' i' j' = cellAt b i' j'.

(** The state of a game already won, with the 2048 tile free to slide. *)
Definition wonState : GameState :=
  {| board := [[0; 2048; 0; 0]; [0; 0; 0; 0]; [0; 0; 0; 0]; [0; 0; 0; 0]];
     score := 20480; gameOver := false; won := true |}.

(** The non-zero prefix of the result of [slideRow]: what the merge loop
    leaves in [merged] before padding. *)
Definition mergedOf (row : list Z) : list Z :=
  emitValue <$> scanPairs (filter (λ cell, cell ≠ 0) row).

(** The clockwise rotation of an [n]-by-[n] board, written with total
    lookups; [rotateBoard] computes it on square boards. *)
Definition rotSquare (n : nat) (b : Board) : Board :=
  (λ colIndex, reverse ((λ row : list Z, row !!! colIndex) <$> b)) <$> seq 0 n.

(** ** Vocabulary for board-wide properties *)

(** Every cell of the board satisfies [P]; some cell satisfies [P]. *)
Definition allCells (P : Z → Prop) (b : Board) : Prop :=
  ∀ i j x, cellAt b i j = Some x → P x.

Definition someCell (P : Z → Prop) (b : Board) : Prop :=
  ∃ i j x, cellAt b i j = Some x ∧ P x.

(** The sum of all tiles, and the number of tiles, of a board. *)
Definition boardSum (b : Board) : Z := sumList (sumList <$> b).

Definition tileCount (b : Board) : nat :=
  length (filter (λ cell, cell ≠ 0) (concat b)).

(** An empty cell or a tile 2, 4, 8, ... *)
Definition validTile (x : Z) : Prop := x = 0 ∨ ∃ k, 1 ≤ k ∧ x = 2 ^ k.

(** Lines and boards on which the score additions of the code are exact
    in binary64: no cell is negative and the cells sum to at most 2^53.
    A merged value [2 * x] replaces two cells [x], so every score, and
    every partial sum on the way to it, is an integer between 0 and the sum
    of the cells. *)
Definition safeRow (row : list Z) : Prop :=
  Forall (λ x, 0 ≤ x) row ∧ sumList row ≤ 2 ^ 53.

Definition safeBoard (b : Board) : Prop :=
  allCells (λ x, 0 ≤ x) b ∧ boardSum b ≤ 2 ^ 53.

(** Column [c] of a board, read from the top. *)
Definition column (b : Board) (c : nat) : list Z :=
  (λ row : list Z, row !!! c) <$> b.

(** Row-major order on coordinates. *)
Definition rowMajorLt (p q : nat * nat) : Prop :=
  (p.1 < q.1)%nat ∨ (p.1 = q.1 ∧ (p.2 < q.2)%nat).

(** A position in the middle of a game, and the state that moving left
    leads to when both random draws are 1/2. *)
Definition sampleState : GameState :=
  {| board := [[2; 2; 0; 0]; [0; 4; 0; 0]; [0; 0; 0; 0]; [0; 0; 0; 8]];
     score := 0; gameOver := false; won := false |}.

Definition sampleNext : GameState :=
  {| board := [[4; 0; 0; 0]; [4; 0; 0; 0]; [2; 0; 0; 0]; [8; 0; 0; 0]];
     score := 4; gameOver := false; won := false |}.

(** What holds of every session the page can reach. *)
Definition sessionOk (ss : Session) : Prop :=
  (3 ≤ boardSize ss ≤ 10)%nat
  ∧ isSquare (boardSize ss) (board (gameState ss))
  ∧ allCells validTile (board (gameState ss))
  ∧ 0 ≤ score (gameState ss).

(** * Row reduction *)

Section slide_row.
Implicit Types (row filtered merged : list Z) (i fuel : nat).

Lemma sumList_app l1 l2 : sumList (l1 ++ l2) = sumList l1 + sumList l2.
Proof. induction l1 as [|x l1 IH]; simpl; lia. Qed.

Lemma sumList_replicate_0 k : sumList (replicate k 0) = 0.
Proof. induction k; simpl; lia. Qed.

Lemma sumList_filter_nonzero row :
  sumList (filter (λ cell, cell ≠ 0) row) = sumList row.
Proof.
  induction row as [|x row IH]; [done|].
  rewrite filter_cons. case_decide; simpl; lia.
Qed.

Lemma sumList_cons x l : sumList (x :: l) = x + sumList l.
Proof. done. Qed.

Lemma scanPairs_merge x rest :
  scanPairs (x :: x :: rest) = Merged x :: scanPairs rest.
Proof. simpl. by rewrite bool_decide_eq_true_2. Qed.

Lemma scanPairs_pass x y rest :
  x ≠ y → scanPairs (x :: y :: rest) = Passed x :: scanPairs (y :: rest).
Proof. intros. simpl. by rewrite bool_decide_eq_false_2. Qed.

(** The loop, started at index [i] with enough fuel, appends exactly what
    the scan of the remaining suffix emits. *)
Lemma mergeLoop_scan fuel filtered i merged sc :
  (length filtered - i ≤ fuel)%nat →
  mergeLoop fuel filtered i merged sc =
    (merged ++ (emitValue <$> scanPairs (drop i filtered)),
     sc + sumList (emitGain <$> scanPairs (drop i filtered))).
Proof.
  revert i merged sc.
  induction fuel as [|fuel IH]; intros i merged sc Hfuel;
    cbn [mergeLoop].
  - rewrite drop_ge by lia. simpl. by rewrite app_nil_r, Z.add_0_r.
  - case_bool_decide as Hi; last first.
    { rewrite drop_ge by lia. simpl. by rewrite app_nil_r, Z.add_0_r. }
    destruct (lookup_lt_is_Some_2 filtered i Hi) as [x Hx].
    rewrite (drop_S _ x i Hx), Hx. cbn [default from_option id].
    destruct (decide (i + 1 < length filtered)%nat) as [Hi1|Hi1].
    + destruct (lookup_lt_is_Some_2 filtered (i + 1) Hi1) as [y Hy].
      rewrite Hy, (bool_decide_eq_true_2 _ Hi1).
      replace (S i) with (i + 1)%nat by lia.
      rewrite (drop_S _ y (i + 1) Hy).
      replace (S (i + 1)) with (i + 2)%nat by lia.
      destruct (decide (x = y)) as [->|Hxy].
      * rewrite bool_decide_eq_true_2 by done. cbn [andb].
        rewrite IH by lia. rewrite scanPairs_merge, !fmap_cons, sumList_cons.
        cbn [emitValue emitGain]. rewrite <- app_assoc. simpl app.
        f_equal. lia.
      * rewrite (bool_decide_eq_false_2 (Some x = Some y)) by congruence.
        cbn [andb]. rewrite IH by lia.
        rewrite (drop_S _ y (i + 1) Hy).
        replace (S (i + 1)) with (i + 2)%nat by lia.
        rewrite scanPairs_pass, !fmap_cons, sumList_cons by done.
        cbn [emitValue emitGain]. rewrite <- app_assoc. simpl app.
        f_equal.
    + rewrite (bool_decide_eq_false_2 _ Hi1). cbn [andb].
      rewrite IH by lia.
      replace (S i) with (i + 1)%nat by lia.
      rewrite (drop_ge filtered (i + 1)) by lia.
      simpl. by rewrite <- app_assoc.
Qed.

Lemma slideRow_reduceLine row : slideRow row = reduceLine row.
Proof.
  unfold slideRow, reduceLine, padTo.
  rewrite mergeLoop_scan by lia. by rewrite drop_0, Z.add_0_l.
Qed.

Local Arguments scanPairs : simpl never.

(** Induction along the cases of the scan. *)
Lemma scan_ind (P : list Z → Prop) :
  P [] →
  (∀ x, P [x]) →
  (∀ x rest, P rest → P (x :: x :: rest)) →
  (∀ x y rest, x ≠ y → P (y :: rest) → P (x :: y :: rest)) →
  ∀ l, P l.
Proof.
  intros Hnil Hone Hmerge Hpass l.
  induction l as [l IH] using (induction_ltof1 _ length).
  unfold ltof in IH.
  destruct l as [|x [|y rest]]; [done..|].
  destruct (decide (x = y)) as [->|Hxy].
  - apply Hmerge, IH. simpl. lia.
  - apply Hpass; [done|]. apply IH. simpl. lia.
Qed.

(** Every input tile is consumed by exactly one emitted value. *)
Lemma scanPairs_consumed l : mjoin (emitConsumed <$> scanPairs l) = l.
Proof.
  induction l as [|x|x rest IH|x y rest Hxy IH] using scan_ind; [done..| |].
  - rewrite scanPairs_merge, fmap_cons. simpl. by rewrite IH.
  - rewrite scanPairs_pass, fmap_cons by done. simpl mjoin.
    by rewrite IH.
Qed.

Lemma scanPairs_sum l : sumList (emitValue <$> scanPairs l) = sumList l.
Proof.
  induction l as [|x|x rest IH|x y rest Hxy IH] using scan_ind; [done..| |].
  - rewrite scanPairs_merge, fmap_cons, !sumList_cons, IH. simpl. lia.
  - rewrite scanPairs_pass, fmap_cons, !sumList_cons, IH by done.
    by rewrite sumList_cons.
Qed.

Lemma scanPairs_length l : (length (scanPairs l) ≤ length l)%nat.
Proof.
  induction l as [|x|x rest IH|x y rest Hxy IH] using scan_ind;
    [simpl; lia..| |].
  - rewrite scanPairs_merge. simpl. lia.
  - rewrite scanPairs_pass by done. simpl in *. lia.
Qed.

(** A scan that merges nothing returns its input, and conversely. *)
Lemma scanPairs_same_length l :
  length (scanPairs l) = length l → emitValue <$> scanPairs l = l.
Proof.
  induction l as [|x|x rest IH|x y rest Hxy IH] using scan_ind; [done..| |].
  - rewrite scanPairs_merge. pose proof (scanPairs_length rest).
    simpl. lia.
  - rewrite scanPairs_pass by done. cbn [length fmap list_fmap].
    intros Hlen. injection Hlen as Hlen.
    cbn [emitValue]. f_equal. by apply IH.
Qed.

Lemma scanPairs_nonzero l :
  Forall (λ x, x ≠ 0) l → Forall (λ x, x ≠ 0) (emitValue <$> scanPairs l).
Proof.
  induction l as [|x|x rest IH|x y rest Hxy IH] using scan_ind;
    [done..| |]; intros Hl.
  - rewrite scanPairs_merge, fmap_cons. cbn [emitValue].
    apply Forall_cons in Hl as [Hx Hl]. apply Forall_cons in Hl as [_ Hl].
    constructor; [lia|auto].
  - rewrite scanPairs_pass, fmap_cons by done. cbn [emitValue].
    apply Forall_cons in Hl as [Hx Hl]. constructor; auto.
Qed.

Lemma filter_nonzero_id row :
  Forall (λ cell, cell ≠ 0) row → filter (λ cell, cell ≠ 0) row = row.
Proof.
  induction 1 as [|x row Hx _ IH]; [done|].
  rewrite filter_cons_True by done. by rewrite IH.
Qed.

Lemma filter_full_length row :
  length (filter (λ cell, cell ≠ 0) row) = length row →
  Forall (λ cell, cell ≠ 0) row.
Proof.
  induction row as [|x row IH]; [done|].
  rewrite filter_cons. pose proof (length_filter (λ cell, cell ≠ 0) row).
  case_decide; simpl; intros; [|lia].
  constructor; [done|]. apply IH. lia.
Qed.

Lemma slideRow_fst row :
  (slideRow row).1 =
    mergedOf row ++ replicate (length row - length (mergedOf row)) 0.
Proof. by rewrite slideRow_reduceLine. Qed.

Lemma mergedOf_length row : (length (mergedOf row) ≤ length row)%nat.
Proof.
  unfold mergedOf. rewrite length_fmap.
  pose proof (scanPairs_length (filter (λ cell, cell ≠ 0) row)).
  pose proof (length_filter (λ cell, cell ≠ 0) row). lia.
Qed.

Lemma mergedOf_nonzero row : Forall (λ x, x ≠ 0) (mergedOf row).
Proof. apply scanPairs_nonzero. by apply list.Forall_forall, list_elem_of_filter. Qed.

Lemma slideRow_length row : length (slideRow row).1 = length row.
Proof.
  rewrite slideRow_fst, length_app, length_replicate.
  pose proof (mergedOf_length row). lia.
Qed.

(** A row that [slideRow] changes ends up with a padding zero. *)
Lemma slideRow_changed_has_zero row :
  (slideRow row).1 ≠ row → 0 ∈ (slideRow row).1.
Proof.
  intros Hne. rewrite slideRow_fst in *.
  pose proof (mergedOf_length row) as Hlen.
  destruct (decide (length (mergedOf row) = length row)) as [Heq|Hlt].
  - exfalso. apply Hne. rewrite Heq, Nat.sub_diag. simpl. rewrite app_nil_r.
    unfold mergedOf in *. rewrite length_fmap in Heq.
    pose proof (scanPairs_length (filter (λ cell, cell ≠ 0) row)).
    pose proof (length_filter (λ cell, cell ≠ 0) row).
    assert (Hall : Forall (λ cell, cell ≠ 0) row)
      by (apply filter_full_length; lia).
    rewrite (filter_nonzero_id _ Hall) in *.
    by apply scanPairs_same_length.
  - apply elem_of_app. right.
    destruct (length row - length (mergedOf row))%nat eqn:Hk; [lia|].
    simpl. left.
Qed.

(** Without zeros and without equal neighbours nothing moves. *)
Lemma slideRow_fixed row :
  Forall (λ cell, cell ≠ 0) row →
  (∀ i x, row !! i = Some x → row !! S i ≠ Some x) →
  (slideRow row).1 = row.
Proof.
  intros Hnz Hadj. rewrite slideRow_fst. unfold mergedOf.
  rewrite (filter_nonzero_id _ Hnz). clear Hnz.
  assert (Hscan : emitValue <$> scanPairs row = row).
  { induction row as [|x|x rest IH|x y rest Hxy IH] using scan_ind;
      [done..| |].
    - by destruct (Hadj 0%nat x).
    - rewrite scanPairs_pass, fmap_cons by done. cbn [emitValue].
      f_equal. apply IH. intros i z. apply (Hadj (S i) z). }
  rewrite Hscan, Nat.sub_diag. simpl. by rewrite app_nil_r.
Qed.

Lemma scanPairs_adjacent_shorter l i x :
  l !! i = Some x → l !! S i = Some x →
  (length (scanPairs l) < length l)%nat.
Proof.
  revert i.
  induction l as [|z|z rest IH|z y rest Hzy IH] using scan_ind;
    intros i Hi HSi; [done| | |].
  - by destruct i.
  - rewrite scanPairs_merge. pose proof (scanPairs_length rest).
    simpl. lia.
  - rewrite scanPairs_pass by done.
    destruct i as [|i]; [simpl in *; congruence|].
    specialize (IH i Hi HSi). simpl in *. lia.
Qed.

(** Two equal neighbours in a row without zeros merge. *)
Lemma slideRow_adjacent_changes row i x :
  Forall (λ cell, cell ≠ 0) row →
  row !! i = Some x → row !! S i = Some x →
  (slideRow row).1 ≠ row.
Proof.
  intros Hnz Hi HSi Heq.
  assert (0 ∈ (slideRow row).1) as Hin; last first.
  { rewrite Heq in Hin. by apply (proj1 (list.Forall_forall _ _) Hnz) in Hin. }
  rewrite slideRow_fst. unfold mergedOf.
  rewrite (filter_nonzero_id _ Hnz), length_fmap.
  pose proof (scanPairs_adjacent_shorter _ _ _ Hi HSi).
  apply elem_of_app. right.
  destruct (length row - length (scanPairs row))%nat eqn:Hk; [lia|].
  simpl. left.
Qed.

Lemma slideRow_head_nonzero row x :
  x ∈ row → x ≠ 0 → ∃ z, (slideRow row).1 !! 0%nat = Some z ∧ z ≠ 0.
Proof.
  intros Hin Hx. rewrite slideRow_fst.
  pose proof (mergedOf_nonzero row) as Hnz.
  destruct (mergedOf row) as [|z out] eqn:Hout.
  - exfalso. unfold mergedOf in Hout.
    apply fmap_nil_inv in Hout.
    assert (Hf : x ∈ filter (λ cell, cell ≠ 0) row)
      by (by apply list_elem_of_filter).
    destruct (filter (λ cell, cell ≠ 0) row) as [|a [|a' l]];
      [by apply elem_of_nil in Hf|done|].
    destruct (decide (a = a')) as [->|];
      [rewrite scanPairs_merge in Hout
      |rewrite scanPairs_pass in Hout by done]; done.
  - exists z. split; [done|]. by apply Forall_cons in Hnz as [? _].
Qed.

(** A row holding both an empty cell and a tile moves to the left or to
    the right. *)
Lemma slideRow_mixed row x :
  0 ∈ row → x ∈ row → x ≠ 0 →
  (slideRow row).1 ≠ row ∨ (slideRow (reverse row)).1 ≠ reverse row.
Proof.
  intros H0 Hin Hx.
  destruct (decide ((slideRow row).1 = row)) as [Hfix|]; [right|by left].
  intros Hrev.
  destruct (slideRow_head_nonzero (reverse row) x) as (z & Hz & Hznz);
    [by apply elem_of_reverse|done|].
  rewrite Hrev in Hz.
  rewrite slideRow_fst in Hfix.
  pose proof (mergedOf_nonzero row) as Hnz.
  destruct (length row - length (mergedOf row))%nat as [|k] eqn:Hk.
  - simpl in Hfix. rewrite app_nil_r in Hfix. rewrite Hfix in Hnz.
    by apply (proj1 (list.Forall_forall _ _) Hnz) in H0.
  - rewrite <- Hfix in Hz. rewrite replicate_S_end in Hz.
    rewrite app_assoc, reverse_snoc in Hz. simpl in Hz. congruence.
Qed.
End slide_row.

(** * Left and right moves *)

Section horizontal_moves.
Implicit Types (b : Board) (row : list Z).

Lemma moveLeft_fold b acc :
  foldl (λ acc row,
           let '(newRow, sc) := slideRow row in
           (acc.1 ++ [newRow], acc.2 + sc)) acc b =
    (acc.1 ++ ((λ row, (slideRow row).1) <$> b),
     acc.2 + sumList ((λ row, (slideRow row).2) <$> b)).
Proof.
  revert acc. induction b as [|row b IH]; intros [accB accS]; simpl.
  - by rewrite app_nil_r, Z.add_0_r.
  - rewrite IH. destruct (slideRow row) as [newRow sc]. simpl.
    rewrite <- app_assoc. simpl. by rewrite Z.add_assoc.
Qed.

Lemma moveRight_fold b acc :
  foldl (λ acc row,
           let reversed := reverse row in
           let '(newRow, sc) := slideRow reversed in
           (acc.1 ++ [reverse newRow], acc.2 + sc)) acc b =
    (acc.1 ++ ((λ row, reverse (slideRow (reverse row)).1) <$> b),
     acc.2 + sumList ((λ row, (slideRow (reverse row)).2) <$> b)).
Proof.
  revert acc. induction b as [|row b IH]; intros [accB accS]; simpl.
  - by rewrite app_nil_r, Z.add_0_r.
  - rewrite IH. destruct (slideRow (reverse row)) as [newRow sc]. simpl.
    rewrite <- app_assoc. simpl. by rewrite Z.add_assoc.
Qed.

Lemma moveLeft_rows b : (moveLeft b).1 = (λ row, (slideRow row).1) <$> b.
Proof. unfold moveLeft. by rewrite moveLeft_fold. Qed.

Lemma moveRight_rows b :
  (moveRight b).1 = (λ row, reverse (slideRow (reverse row)).1) <$> b.
Proof. unfold moveRight. by rewrite moveRight_fold. Qed.

Lemma moveLeft_square n b : isSquare n b → isSquare n (moveLeft b).1.
Proof.
  intros [Hlen Hrows]. rewrite moveLeft_rows. split.
  - by rewrite length_fmap.
  - apply Forall_fmap. eapply Forall_impl; [done|].
    intros row Hrow. simpl. by rewrite slideRow_length.
Qed.

Lemma moveRight_square n b : isSquare n b → isSquare n (moveRight b).1.
Proof.
  intros [Hlen Hrows]. rewrite moveRight_rows. split.
  - by rewrite length_fmap.
  - apply Forall_fmap. eapply Forall_impl; [done|].
    intros row Hrow. simpl.
    by rewrite length_reverse, slideRow_length, length_reverse.
Qed.

(** A left move that changes the board changes some row. *)
Lemma moveLeft_changed_row b :
  (moveLeft b).1 ≠ b → ∃ i row, b !! i = Some row ∧ (slideRow row).1 ≠ row.
Proof.
  rewrite moveLeft_rows. induction b as [|row b IH]; [done|].
  rewrite fmap_cons. intros Hne.
  destruct (decide ((slideRow row).1 = row)) as [Heq|Hrow].
  - destruct IH as (i & r & Hi & Hr); [congruence|].
    by exists (S i), r.
  - by exists 0%nat, row.
Qed.

Lemma moveRight_changed_row b :
  (moveRight b).1 ≠ b →
  ∃ i row, b !! i = Some row ∧ (slideRow (reverse row)).1 ≠ reverse row.
Proof.
  rewrite moveRight_rows. induction b as [|row b IH]; [done|].
  rewrite fmap_cons. intros Hne.
  destruct (decide ((slideRow (reverse row)).1 = reverse row)) as [Heq|Hrow].
  - destruct IH as (i & r & Hi & Hr).
    { rewrite Heq, reverse_involutive in Hne. congruence. }
    by exists (S i), r.
  - by exists 0%nat, row.
Qed.

Lemma moveLeft_row_changes b i row :
  b !! i = Some row → (slideRow row).1 ≠ row → (moveLeft b).1 ≠ b.
Proof.
  intros Hi Hrow Heq. apply Hrow.
  assert ((moveLeft b).1 !! i = Some (slideRow row).1) as Hl
    by (by rewrite moveLeft_rows, list_lookup_fmap, Hi).
  rewrite Heq in Hl. congruence.
Qed.

Lemma moveRight_row_changes b i row :
  b !! i = Some row → (slideRow (reverse row)).1 ≠ reverse row →
  (moveRight b).1 ≠ b.
Proof.
  intros Hi Hrow Heq. apply Hrow.
  assert ((moveRight b).1 !! i = Some (reverse (slideRow (reverse row)).1))
    as Hl by (by rewrite moveRight_rows, list_lookup_fmap, Hi).
  rewrite Heq in Hl.
  apply (inj reverse). rewrite reverse_involutive. congruence.
Qed.
End horizontal_moves.

(** * Square boards and rotation *)

Section rotation.
Implicit Types (b : Board) (n r c i j : nat).

Lemma isSquare_lookup n b i row :
  isSquare n b → b !! i = Some row → length row = n.
Proof.
  intros [_ Hrows] Hi.
  apply list_elem_of_lookup_2 in Hi.
  by apply (proj1 (list.Forall_forall _ _) Hrows) in Hi.
Qed.

Lemma cellAt_is_Some n b i j :
  isSquare n b → (i < n)%nat → (j < n)%nat → is_Some (cellAt b i j).
Proof.
  intros Hsq Hi Hj. unfold cellAt.
  destruct (lookup_lt_is_Some_2 b i) as [row Hrow]; [destruct Hsq; lia|].
  rewrite Hrow. simpl. apply lookup_lt_is_Some_2.
  by rewrite (isSquare_lookup _ _ _ _ Hsq Hrow).
Qed.

Lemma cellAt_lt n b i j x :
  isSquare n b → cellAt b i j = Some x → (i < n)%nat ∧ (j < n)%nat.
Proof.
  intros Hsq. unfold cellAt. destruct (b !! i) as [row|] eqn:Hrow; [|done].
  simpl. intros Hj. split.
  - apply lookup_lt_Some in Hrow. destruct Hsq. lia.
  - apply lookup_lt_Some in Hj.
    by rewrite (isSquare_lookup _ _ _ _ Hsq Hrow) in Hj.
Qed.

Lemma cellAt_row b i j row : b !! i = Some row → cellAt b i j = row !! j.
Proof. unfold cellAt. by intros ->. Qed.

(** Square boards with the same cells are equal. *)
Lemma square_ext n b b' :
  isSquare n b → isSquare n b' →
  (∀ r c, (r < n)%nat → (c < n)%nat → cellAt b r c = cellAt b' r c) →
  b = b'.
Proof.
  intros Hsq Hsq' Hcells.
  apply (list_eq_same_length _ _ n); [by destruct Hsq'|by destruct Hsq|].
  intros r row row' Hr Hrow Hrow'.
  apply (list_eq_same_length _ _ n);
    [exact (isSquare_lookup _ _ _ _ Hsq' Hrow')
    |exact (isSquare_lookup _ _ _ _ Hsq Hrow)|].
  intros c x y Hc Hx Hy.
  specialize (Hcells r c Hr Hc).
  rewrite (cellAt_row _ _ _ _ Hrow), (cellAt_row _ _ _ _ Hrow') in Hcells.
  congruence.
Qed.

Lemma rotSquare_square n b : isSquare n b → isSquare n (rotSquare n b).
Proof.
  intros [Hlen _]. unfold rotSquare. split.
  - by rewrite length_fmap, length_seq.
  - apply Forall_fmap, list.Forall_forall. intros c _. simpl.
    by rewrite length_reverse, length_fmap.
Qed.

(** On the empty array [board[0]] is [undefined] and the call throws. *)
Lemma rotateBoard_empty : rotateBoard [] = None.
Proof. done. Qed.

(** The rotated cell at [(r, c)] is the original cell at [(n-1-c, r)]. *)
Lemma cellAt_rotSquare n b r c :
  isSquare n b → (r < n)%nat → (c < n)%nat →
  cellAt (rotSquare n b) r c = cellAt b (n - 1 - c) r.
Proof.
  intros Hsq Hr Hc. unfold rotSquare.
  rewrite (cellAt_row _ r c (reverse ((λ row : list Z, row !!! r) <$> b))).
  2:{ by rewrite list_lookup_fmap, lookup_seq_lt. }
  destruct Hsq as [Hlen Hrows].
  rewrite reverse_lookup by (rewrite length_fmap; lia).
  rewrite length_fmap, list_lookup_fmap, Hlen.
  replace (n - S c)%nat with (n - 1 - c)%nat by lia.
  unfold cellAt.
  destruct (lookup_lt_is_Some_2 b (n - 1 - c)) as [row Hrow]; [lia|].
  rewrite Hrow. simpl. symmetry. apply list_lookup_lookup_total_lt.
  by rewrite (isSquare_lookup n b _ _ (conj Hlen Hrows) Hrow).
Qed.

(** On a non-empty square board [rotateBoard] succeeds and computes
    [rotSquare]. *)
Lemma rotateBoard_square n b :
  (0 < n)%nat → isSquare n b → rotateBoard b = Some (rotSquare n b).
Proof.
  intros Hn Hsq. unfold rotateBoard, rotSquare.
  destruct (lookup_lt_is_Some_2 b 0) as [row0 Hrow0]; [destruct Hsq; lia|].
  rewrite Hrow0. simpl. rewrite (isSquare_lookup _ _ _ _ Hsq Hrow0).
  apply mapM_Some_2, Forall2_fmap_r, Forall_Forall2_diag, list.Forall_forall.
  intros c Hc. apply elem_of_seq in Hc.
  assert (mapM (λ row : list Z, row !! c) b
          = Some ((λ row : list Z, row !!! c) <$> b)) as ->; [|done].
  apply mapM_Some_2, Forall2_fmap_r, Forall_Forall2_diag, list.Forall_forall.
  intros row Hrow. apply list_lookup_lookup_total_lt.
  apply list_elem_of_lookup_1 in Hrow as [i Hi].
  rewrite (isSquare_lookup _ _ _ _ Hsq Hi). lia.
Qed.

Lemma rotSquare_four n b :
  isSquare n b →
  rotSquare n (rotSquare n (rotSquare n (rotSquare n b))) = b.
Proof.
  intros Hsq.
  pose proof (rotSquare_square _ _ Hsq) as Hsq1.
  pose proof (rotSquare_square _ _ Hsq1) as Hsq2.
  pose proof (rotSquare_square _ _ Hsq2) as Hsq3.
  pose proof (rotSquare_square _ _ Hsq3) as Hsq4.
  apply (square_ext n); [done..|].
  intros r c Hr Hc.
  rewrite !cellAt_rotSquare by (done || lia).
  f_equal; lia.
Qed.

(** Rotation is injective on square boards. *)
Lemma rotSquare_inj n b b' :
  isSquare n b → isSquare n b' → rotSquare n b = rotSquare n b' → b = b'.
Proof.
  intros Hsq Hsq' Heq.
  rewrite <- (rotSquare_four n b), <- (rotSquare_four n b') by done.
  by rewrite Heq.
Qed.
End rotation.

(** * Empty cells *)

Section empty_cells.
Implicit Types (b : Board) (row : list Z) (i j : nat) (p : nat * nat).

Lemma elem_of_emptyInRow i j0 row p :
  p ∈ emptyInRow i j0 row ↔ ∃ j, p = (i, (j0 + j)%nat) ∧ row !! j = Some 0.
Proof.
  revert j0. induction row as [|cell row IH]; intros j0; simpl.
  - split; [by intros ?%elem_of_nil|by intros (? & _ & ?)].
  - rewrite elem_of_app, IH. split.
    + intros [Hhd|(j & -> & Hj)].
      * case_bool_decide; [|by apply elem_of_nil in Hhd].
        apply list_elem_of_singleton in Hhd as ->. exists 0%nat.
        split; [f_equal; lia|by subst].
      * exists (S j). split; [f_equal; lia|done].
    + intros ([|j] & -> & Hj); simplify_eq/=.
      * left. apply list_elem_of_singleton. f_equal. lia.
      * right. exists j. split; [f_equal; lia|done].
Qed.

Lemma elem_of_emptyFrom i0 b p :
  p ∈ emptyFrom i0 b ↔
  ∃ i j, p = ((i0 + i)%nat, j) ∧ cellAt b i j = Some 0.
Proof.
  revert i0. induction b as [|row b IH]; intros i0; simpl.
  - split; [by intros ?%elem_of_nil|by intros (? & ? & _ & ?)].
  - rewrite elem_of_app, elem_of_emptyInRow, IH. split.
    + intros [(j & -> & Hj)|(i & j & -> & Hij)].
      * exists 0%nat, j. split; [f_equal; lia|done].
      * exists (S i), j. split; [f_equal; lia|done].
    + intros ([|i] & j & -> & Hij).
      * left. exists j. split; [f_equal; lia|done].
      * right. exists i, j. split; [f_equal; lia|done].
Qed.

(** [getEmptyCells] lists exactly the coordinates that hold 0. *)
Lemma elem_of_getEmptyCells b i j :
  (i, j) ∈ getEmptyCells b ↔ cellAt b i j = Some 0.
Proof.
  unfold getEmptyCells. rewrite elem_of_emptyFrom. split.
  - by intros (i' & j' & [= -> ->] & H).
  - intros H. by exists i, j.
Qed.

Lemma getEmptyCells_nonempty b :
  getEmptyCells b ≠ [] ↔ hasEmptyCell b.
Proof.
  unfold hasEmptyCell. split.
  - destruct (getEmptyCells b) as [|[i j] l] eqn:Hcells; [done|].
    intros _. exists i, j. apply elem_of_getEmptyCells.
    rewrite Hcells. left.
  - intros (i & j & Hij%elem_of_getEmptyCells) Hnil.
    rewrite Hnil in Hij. by apply elem_of_nil in Hij.
Qed.

(** A zero somewhere in a row is an empty cell of the board. *)
Lemma hasEmptyCell_row b i row :
  b !! i = Some row → 0 ∈ row → hasEmptyCell b.
Proof.
  intros Hi [j Hj]%list_elem_of_lookup_1. exists i, j.
  by rewrite (cellAt_row _ _ _ _ Hi).
Qed.
End empty_cells.

(** * Board comparison *)

Section boards_equal.
Implicit Types (b : Board) (row : list Z).

(** Comparing one row against [row2], from column [j0] on. *)
Lemma everyFrom_row row2 row j0 :
  ∃ r, everyFrom (λ j cell, Some (bool_decide (row2 !! j = Some cell))) j0 row
         = Some r
       ∧ (r = true ↔
          ∀ k x, row !! k = Some x → row2 !! (j0 + k)%nat = Some x).
Proof.
  revert j0. induction row as [|cell row IH]; intros j0; simpl.
  - by exists true.
  - case_bool_decide as Hhd.
    + destruct (IH (S j0)) as (r & -> & Hr). exists r. split; [done|].
      rewrite Hr. split.
      * intros H [|k] x Hk; simplify_eq/=.
        -- by rewrite Nat.add_0_r.
        -- rewrite <- Nat.add_succ_comm. by apply H.
      * intros H k x Hk. rewrite Nat.add_succ_comm. by apply (H (S k)).
    + exists false. split; [done|]. split; [done|]. intros H.
      destruct Hhd. rewrite <- (Nat.add_0_r j0). by apply (H 0%nat).
Qed.

(** Comparing [b1] against the rows of [b2] from row [i0] on; no read of
    [b2] fails when [b2] has a row for each row of [b1]. *)
Lemma everyFrom_board b1 b2 i0 :
  (i0 + length b1 ≤ length b2)%nat →
  ∃ r, everyFrom (λ i row,
         everyFrom (λ j cell,
           row2 ← b2 !! i;
           Some (bool_decide (row2 !! j = Some cell))) 0 row) i0 b1 = Some r
       ∧ (r = true ↔
          ∀ i row k x, b1 !! i = Some row → row !! k = Some x →
                       cellAt b2 (i0 + i) k = Some x).
Proof.
  revert i0. induction b1 as [|row b1 IH]; intros i0 Hlen; simpl in *.
  - by exists true.
  - destruct (lookup_lt_is_Some_2 b2 i0) as [row2 Hrow2]; [lia|].
    rewrite Hrow2. simpl.
    destruct (everyFrom_row row2 row 0) as (r & -> & Hr). simpl.
    destruct r.
    + destruct (IH (S i0)) as (r' & -> & Hr'); [lia|].
      exists r'. split; [done|]. rewrite Hr'. split.
      * intros H [|i] rw k x Hi Hk; simplify_eq/=.
        -- rewrite Nat.add_0_r, (cellAt_row _ _ _ _ Hrow2).
           by apply (proj1 Hr).
        -- rewrite <- Nat.add_succ_comm. by eapply H.
      * intros H i rw k x Hi Hk. rewrite Nat.add_succ_comm.
        by apply (H (S i) rw).
    + exists false. split; [done|]. split; [done|]. intros H.
      apply Hr. intros k x Hk.
      specialize (H 0%nat row k x eq_refl Hk).
      by rewrite Nat.add_0_r, (cellAt_row _ _ _ _ Hrow2) in H.
Qed.

Lemma boardsEqual_refl b : boardsEqual b b = Some true.
Proof.
  destruct (everyFrom_board b b 0) as (r & Hr & Htrue); [simpl; lia|].
  unfold boardsEqual. rewrite Hr. f_equal. apply Htrue.
  intros i row k x Hi Hk. by rewrite (cellAt_row _ _ _ _ Hi).
Qed.

(** On boards of the same square shape [boardsEqual] decides equality. *)
Lemma boardsEqual_square n b1 b2 :
  isSquare n b1 → isSquare n b2 →
  boardsEqual b1 b2 = Some (bool_decide (b1 = b2)).
Proof.
  intros Hsq1 Hsq2.
  destruct (everyFrom_board b1 b2 0) as (r & Hr & Htrue).
  { destruct Hsq1, Hsq2. simpl. lia. }
  unfold boardsEqual. rewrite Hr. f_equal.
  destruct r; symmetry.
  - apply bool_decide_eq_true_2, (square_ext n); [done..|].
    intros i k Hi Hk.
    destruct (cellAt_is_Some _ _ _ _ Hsq1 Hi Hk) as [x Hx].
    rewrite Hx. symmetry. unfold cellAt in Hx.
    destruct (b1 !! i) as [row|] eqn:Hrow; [|done].
    by apply (proj1 Htrue eq_refl i row k x).
  - apply bool_decide_eq_false_2. intros ->.
    assert (false = true); [|done].
    apply Htrue. intros i row k x Hi Hk. by rewrite (cellAt_row _ _ _ _ Hi).
Qed.
End boards_equal.

(** * Random tile placement *)

Section random_tile.
Implicit Types (b : Board) (u v : Q) (i j : nat).

(** [Math.floor(r * len)] is an index into an array of length [len]. *)
Lemma randomIndex_lt u len :
  unitDraw u → (0 < len)%nat → (randomIndex u len < len)%nat.
Proof.
  intros [Hu0 Hu1] Hlen. unfold randomIndex.
  assert (0 < inject_Z (Z.of_nat len))%Q as HL.
  { replace 0%Q with (inject_Z 0) by done. rewrite <- Zlt_Qlt. lia. }
  assert (0 ≤ Qfloor (u * inject_Z (Z.of_nat len))) as Hlo.
  { replace 0 with (Qfloor (inject_Z 0)) by done.
    apply Qfloor_resp_le. apply Qmult_le_0_compat; [done|].
    by apply Qlt_le_weak. }
  assert (Qfloor (u * inject_Z (Z.of_nat len)) < Z.of_nat len) as Hhi.
  { rewrite Zlt_Qlt. eapply Qle_lt_trans; [apply Qfloor_le|].
    eapply Qlt_le_trans; [apply Qmult_lt_compat_r; [exact HL|exact Hu1]|].
    rewrite Qmult_1_l. apply Qle_refl. }
  lia.
Qed.

Lemma randomValue_cases v : randomValue v = 2 ∨ randomValue v = 4.
Proof. unfold randomValue. destruct (Qlt_le_dec v (9 # 10)); auto. Qed.

Lemma cellAt_setCell_eq b i j x y :
  cellAt b i j = Some y → cellAt (setCell b i j x) i j = Some x.
Proof.
  unfold cellAt, setCell. rewrite list_lookup_alter_eq.
  destruct (b !! i) as [row|]; [|done]. simpl.
  intros Hj%lookup_lt_Some. by apply list_lookup_insert_eq.
Qed.

Lemma cellAt_setCell_ne b i j x i' j' :
  (i, j) ≠ (i', j') → cellAt (setCell b i j x) i' j' = cellAt b i' j'.
Proof.
  intros Hne. unfold cellAt, setCell.
  destruct (decide (i = i')) as [<-|Hi].
  - rewrite list_lookup_alter_eq. destruct (b !! i) as [row|]; [|done].
    simpl. apply list_lookup_insert_ne. congruence.
  - by rewrite list_lookup_alter_ne.
Qed.

Lemma setCell_square n b i j x : isSquare n b → isSquare n (setCell b i j x).
Proof.
  intros Hsq. unfold setCell. split.
  - rewrite length_alter. by destruct Hsq.
  - apply list.Forall_forall. intros row [k Hk]%list_elem_of_lookup_1.
    destruct (decide (i = k)) as [<-|Hne].
    + rewrite list_lookup_alter_eq in Hk.
      destruct (b !! i) as [row'|] eqn:Hrow; simplify_eq/=.
      rewrite length_insert.
      exact (isSquare_lookup _ _ _ _ Hsq Hrow).
    + rewrite list_lookup_alter_ne in Hk by done.
      exact (isSquare_lookup _ _ _ _ Hsq Hk).
Qed.

(** A full board is returned as it is, without consuming a draw. *)
Lemma addRandomTile_full b u v :
  getEmptyCells b = [] → addRandomTile b u v = Some b.
Proof. unfold addRandomTile. by intros ->. Qed.

(** With an empty cell available, one of them receives a 2 or a 4. *)
Lemma addRandomTile_spawns b u v :
  unitDraw u → getEmptyCells b ≠ [] →
  ∃ i j, getEmptyCells b !! randomIndex u (length (getEmptyCells b))
           = Some (i, j)
         ∧ cellAt b i j = Some 0
         ∧ addRandomTile b u v = Some (setCell b i j (randomValue v)).
Proof.
  intros Hu Hne. unfold addRandomTile.
  assert (0 < length (getEmptyCells b))%nat as Hlen.
  { destruct (getEmptyCells b); [done|simpl; lia]. }
  rewrite bool_decide_eq_false_2 by lia.
  destruct (lookup_lt_is_Some_2 (getEmptyCells b)
              (randomIndex u (length (getEmptyCells b)))) as [[i j] Hij].
  { by apply randomIndex_lt. }
  exists i, j. rewrite Hij. split; [done|]. split; [|done].
  apply list_elem_of_lookup_2 in Hij. by apply elem_of_getEmptyCells.
Qed.

Lemma addRandomTile_spawnedFrom b u v :
  unitDraw u → getEmptyCells b ≠ [] →
  ∃ b', addRandomTile b u v = Some b' ∧ spawnedFrom b b'.
Proof.
  intros Hu Hne.
  destruct (addRandomTile_spawns b u v Hu Hne) as (i & j & _ & Hz & Hadd).
  eexists. split; [done|]. exists i, j, (randomValue v).
  split; [done|]. split; [apply randomValue_cases|]. split; [done|].
  split; [by eapply cellAt_setCell_eq|].
  intros i' j' Hne'. by apply cellAt_setCell_ne.
Qed.
End random_tile.

(** * Up and down moves on square boards *)

Section vertical_moves.
Implicit Types (b : Board) (n r c i j : nat).

Lemma isSquare_0 b : isSquare 0 b → b = [].
Proof. intros [Hlen _]. by destruct b. Qed.

(** Three clockwise rotations: the cell at [(r, c)] comes from
    [(c, n-1-r)]. *)
Lemma cellAt_rot3 n b r c :
  isSquare n b → (r < n)%nat → (c < n)%nat →
  cellAt (rotSquare n (rotSquare n (rotSquare n b))) r c
    = cellAt b c (n - 1 - r).
Proof.
  intros Hsq Hr Hc.
  pose proof (rotSquare_square _ _ Hsq) as Hsq1.
  pose proof (rotSquare_square _ _ Hsq1) as Hsq2.
  rewrite !cellAt_rotSquare by (done || lia). f_equal; lia.
Qed.

Lemma moveUp_square n b :
  (0 < n)%nat → isSquare n b →
  moveUp b =
    Some (rotSquare n
            (moveLeft (rotSquare n (rotSquare n (rotSquare n b)))).1,
          (moveLeft (rotSquare n (rotSquare n (rotSquare n b)))).2).
Proof.
  intros Hn Hsq. unfold moveUp.
  pose proof (rotSquare_square _ _ Hsq) as Hsq1.
  pose proof (rotSquare_square _ _ Hsq1) as Hsq2.
  pose proof (rotSquare_square _ _ Hsq2) as Hsq3.
  rewrite (rotateBoard_square n b) by done. simpl.
  rewrite (rotateBoard_square n _ Hn Hsq1). simpl.
  rewrite (rotateBoard_square n _ Hn Hsq2). simpl.
  pose proof (moveLeft_square _ _ Hsq3) as HsqL.
  destruct (moveLeft _) as [moved sc]. simpl in *.
  by rewrite (rotateBoard_square n moved Hn HsqL).
Qed.

Lemma moveDown_square n b :
  (0 < n)%nat → isSquare n b →
  moveDown b =
    Some (rotSquare n (rotSquare n (rotSquare n
            (moveLeft (rotSquare n b)).1)),
          (moveLeft (rotSquare n b)).2).
Proof.
  intros Hn Hsq. unfold moveDown.
  pose proof (rotSquare_square _ _ Hsq) as Hsq1.
  rewrite (rotateBoard_square n b) by done. simpl.
  pose proof (moveLeft_square _ _ Hsq1) as HsqL.
  destruct (moveLeft _) as [moved sc]. simpl in *.
  pose proof (rotSquare_square _ _ HsqL) as HsqL1.
  pose proof (rotSquare_square _ _ HsqL1) as HsqL2.
  rewrite (rotateBoard_square n moved Hn HsqL). simpl.
  rewrite (rotateBoard_square n _ Hn HsqL1). simpl.
  by rewrite (rotateBoard_square n _ Hn HsqL2).
Qed.

(** Every move keeps the shape of a square board. *)
Lemma applyDirection_square n b d b' sc :
  isSquare n b → applyDirection b d = Some (b', sc) → isSquare n b'.
Proof.
  intros Hsq Hmove.
  destruct d; simpl in Hmove.
  - destruct n as [|n]; [by rewrite (isSquare_0 _ Hsq) in Hmove|].
    rewrite (moveUp_square (S n)) in Hmove by (done || lia).
    injection Hmove as <- <-.
    by repeat (apply rotSquare_square || apply moveLeft_square).
  - destruct n as [|n]; [by rewrite (isSquare_0 _ Hsq) in Hmove|].
    rewrite (moveDown_square (S n)) in Hmove by (done || lia).
    injection Hmove as <- <-.
    by repeat (apply rotSquare_square || apply moveLeft_square).
  - injection Hmove as Hmove. apply (f_equal fst) in Hmove.
    simpl in Hmove. subst b'. by apply moveLeft_square.
  - injection Hmove as Hmove. apply (f_equal fst) in Hmove.
    simpl in Hmove. subst b'. by apply moveRight_square.
Qed.

(** An up move changes the board exactly when sliding the columns,
    laid out as rows, changes them. *)
Lemma moveUp_fixed_iff n b :
  isSquare n b →
  rotSquare n (moveLeft (rotSquare n (rotSquare n (rotSquare n b)))).1 = b
  ↔ (moveLeft (rotSquare n (rotSquare n (rotSquare n b)))).1
      = rotSquare n (rotSquare n (rotSquare n b)).
Proof.
  intros Hsq.
  pose proof (rotSquare_square _ _ Hsq) as Hsq1.
  pose proof (rotSquare_square _ _ Hsq1) as Hsq2.
  pose proof (rotSquare_square _ _ Hsq2) as Hsq3.
  pose proof (moveLeft_square _ _ Hsq3) as HsqL.
  split.
  - intros Heq. apply (rotSquare_inj n); [done..|].
    by rewrite Heq, rotSquare_four.
  - intros ->. by apply rotSquare_four.
Qed.

Lemma moveDown_fixed_iff n b :
  isSquare n b →
  rotSquare n (rotSquare n (rotSquare n (moveLeft (rotSquare n b)).1)) = b
  ↔ (moveLeft (rotSquare n b)).1 = rotSquare n b.
Proof.
  intros Hsq.
  pose proof (rotSquare_square _ _ Hsq) as Hsq1.
  pose proof (moveLeft_square _ _ Hsq1) as HsqL.
  split.
  - intros Heq. rewrite <- Heq at 2. by rewrite rotSquare_four.
  - intros ->. by apply rotSquare_four.
Qed.

(** Rotation moves cells around without changing their values. *)
Lemma hasEmptyCell_rotSquare n b :
  isSquare n b → hasEmptyCell (rotSquare n b) ↔ hasEmptyCell b.
Proof.
  intros Hsq. pose proof (rotSquare_square _ _ Hsq) as Hsq1. split.
  - intros (r & c & Hrc).
    destruct (cellAt_lt _ _ _ _ _ Hsq1 Hrc) as [Hr Hc].
    rewrite cellAt_rotSquare in Hrc by done. by eexists _, _.
  - intros (i & j & Hij).
    destruct (cellAt_lt _ _ _ _ _ Hsq Hij) as [Hi Hj].
    exists j, (n - 1 - i)%nat. rewrite cellAt_rotSquare by (done || lia).
    by replace (n - 1 - (n - 1 - i))%nat with i by lia.
Qed.

Lemma hasEqualRight_rotSquare n b :
  isSquare n b →
  hasEqualRightNeighbour (rotSquare n b) → hasEqualBottomNeighbour b.
Proof.
  intros Hsq (r & c & x & Hrc & HrSc).
  pose proof (rotSquare_square _ _ Hsq) as Hsq1.
  destruct (cellAt_lt _ _ _ _ _ Hsq1 HrSc) as [Hr Hc].
  rewrite cellAt_rotSquare in Hrc, HrSc by (done || lia).
  exists (n - 1 - S c)%nat, r, x. split; [done|].
  by replace (S (n - 1 - S c)) with (n - 1 - c)%nat by lia.
Qed.

Lemma hasEqualRight_rot3 n b :
  isSquare n b →
  hasEqualRightNeighbour (rotSquare n (rotSquare n (rotSquare n b)))
  ↔ hasEqualBottomNeighbour b.
Proof.
  intros Hsq.
  pose proof (rotSquare_square _ _ Hsq) as Hsq1.
  pose proof (rotSquare_square _ _ Hsq1) as Hsq2.
  pose proof (rotSquare_square _ _ Hsq2) as Hsq3.
  split.
  - intros (r & c & x & Hrc & HrSc).
    destruct (cellAt_lt _ _ _ _ _ Hsq3 HrSc) as [Hr Hc].
    rewrite cellAt_rot3 in Hrc, HrSc by (done || lia).
    by exists c, (n - 1 - r)%nat, x.
  - intros (i & j & x & Hij & HSij).
    destruct (cellAt_lt _ _ _ _ _ Hsq HSij) as [Hi Hj].
    exists (n - 1 - j)%nat, i, x.
    rewrite !cellAt_rot3 by (done || lia).
    by replace (n - 1 - (n - 1 - j))%nat with j by lia.
Qed.
End vertical_moves.

(** * Which moves change a board *)

Section movability.
Implicit Types (b : Board) (row : list Z) (n r c i j : nat).

Lemma neighbourEqual_true n b i j :
  isSquare n b → (i < n)%nat → (j < n)%nat →
  neighbourEqual b n i j = true ↔
    (∃ x, cellAt b i j = Some x ∧ cellAt b i (S j) = Some x)
    ∨ (∃ x, cellAt b i j = Some x ∧ cellAt b (S i) j = Some x).
Proof.
  intros Hsq Hi Hj. unfold neighbourEqual.
  destruct (cellAt_is_Some _ _ _ _ Hsq Hi Hj) as [x Hx].
  rewrite orb_true_iff, !andb_true_iff, !bool_decide_eq_true.
  replace (j + 1)%nat with (S j) by lia.
  replace (i + 1)%nat with (S i) by lia.
  rewrite Hx. split.
  - intros [[_ Heq]|[_ Heq]]; [left|right]; by exists x.
  - intros [(y & [= <-] & Hy)|(y & [= <-] & Hy)]; [left|right].
    + destruct (cellAt_lt _ _ _ _ _ Hsq Hy). split; [lia|done].
    + destruct (cellAt_lt _ _ _ _ _ Hsq Hy). split; [lia|done].
Qed.

(** [canMove] on a square board: an empty cell, or two equal
    neighbours in a row, or two equal neighbours in a column. *)
Lemma canMove_spec n b :
  isSquare n b →
  canMove b = true ↔
    hasEmptyCell b ∨ hasEqualRightNeighbour b ∨ hasEqualBottomNeighbour b.
Proof.
  intros Hsq. unfold canMove. pose proof Hsq as [Hlen _].
  case_bool_decide as Hempty.
  - split; [intros _; left|done].
    apply getEmptyCells_nonempty. intros Hnil. rewrite Hnil in Hempty.
    simpl in Hempty. lia.
  - assert (¬ hasEmptyCell b) as Hfull.
    { intros Hc%getEmptyCells_nonempty.
      destruct (getEmptyCells b); [done|simpl in Hempty; lia]. }
    rewrite Hlen. cbn zeta. rewrite existsb_exists. split.
    + intros (i & Hi%list_elem_of_In%elem_of_seq & Hex). right.
      apply existsb_exists in Hex as (j & Hj%list_elem_of_In%elem_of_seq & Hij).
      apply (neighbourEqual_true n) in Hij; [|done|lia..].
      destruct Hij as [(x & ? & ?)|(x & ? & ?)]; [left|right];
        by exists i, j, x.
    + intros [?|[(i & j & x & Hij & Hn)|(i & j & x & Hij & Hn)]]; [done| |].
      * destruct (cellAt_lt _ _ _ _ _ Hsq Hij) as [Hi Hj].
        exists i. split; [apply list_elem_of_In, elem_of_seq; lia|].
        apply existsb_exists. exists j.
        split; [apply list_elem_of_In, elem_of_seq; lia|].
        apply (neighbourEqual_true n); [done..|]. left. by exists x.
      * destruct (cellAt_lt _ _ _ _ _ Hsq Hij) as [Hi Hj].
        exists i. split; [apply list_elem_of_In, elem_of_seq; lia|].
        apply existsb_exists. exists j.
        split; [apply list_elem_of_In, elem_of_seq; lia|].
        apply (neighbourEqual_true n); [done..|]. right. by exists x.
Qed.

Lemma full_row_nonzero b i row :
  ¬ hasEmptyCell b → b !! i = Some row → Forall (λ cell, cell ≠ 0) row.
Proof.
  intros Hfull Hi. apply list.Forall_forall. intros x Hx ->.
  apply Hfull. by eapply hasEmptyCell_row.
Qed.

(** A full board without equal horizontal neighbours is a fixed point
    of the left and of the right move. *)
Lemma moveLeft_fixed_cells b :
  ¬ hasEmptyCell b → ¬ hasEqualRightNeighbour b → (moveLeft b).1 = b.
Proof.
  intros Hfull Hadj. rewrite moveLeft_rows.
  apply list_eq. intros i. rewrite list_lookup_fmap.
  destruct (b !! i) as [row|] eqn:Hi; [|done]. simpl. f_equal.
  apply slideRow_fixed; [by eapply full_row_nonzero|].
  intros k x Hk HSk. apply Hadj. exists i, k, x.
  by rewrite !(cellAt_row _ _ _ _ Hi).
Qed.

Lemma moveRight_fixed_cells b :
  ¬ hasEmptyCell b → ¬ hasEqualRightNeighbour b → (moveRight b).1 = b.
Proof.
  intros Hfull Hadj. rewrite moveRight_rows.
  apply list_eq. intros i. rewrite list_lookup_fmap.
  destruct (b !! i) as [row|] eqn:Hi; [|done]. simpl. f_equal.
  rewrite slideRow_fixed; [apply reverse_involutive| |].
  - apply Forall_reverse. by eapply full_row_nonzero.
  - intros k x [Hk _]%reverse_lookup_Some [HSk Hlt]%reverse_lookup_Some.
    apply Hadj. exists i, (length row - S (S k))%nat, x.
    rewrite !(cellAt_row _ _ _ _ Hi). split; [done|].
    by replace (S (length row - S (S k))) with (length row - S k)%nat by lia.
Qed.

(** Two equal horizontal neighbours on a full board merge on a left
    move. *)
Lemma moveLeft_merges b :
  ¬ hasEmptyCell b → hasEqualRightNeighbour b → (moveLeft b).1 ≠ b.
Proof.
  intros Hfull (i & j & x & Hij & HiSj).
  unfold cellAt in Hij, HiSj.
  destruct (b !! i) as [row|] eqn:Hi; [|done]. simpl in *.
  apply (moveLeft_row_changes b i row Hi).
  apply (slideRow_adjacent_changes row j x);
    [by eapply full_row_nonzero|done..].
Qed.

Lemma changesBoard_Left b : changesBoard b Left ↔ (moveLeft b).1 ≠ b.
Proof.
  unfold changesBoard. simpl. split.
  - intros (b' & sc & [= Heq] & Hne). by rewrite Heq.
  - intros Hne. exists (moveLeft b).1, (moveLeft b).2.
    split; [by destruct (moveLeft b)|done].
Qed.

Lemma changesBoard_Right b : changesBoard b Right ↔ (moveRight b).1 ≠ b.
Proof.
  unfold changesBoard. simpl. split.
  - intros (b' & sc & [= Heq] & Hne). by rewrite Heq.
  - intros Hne. exists (moveRight b).1, (moveRight b).2.
    split; [by destruct (moveRight b)|done].
Qed.

Lemma changesBoard_Up n b :
  (0 < n)%nat → isSquare n b →
  changesBoard b Up ↔
    (moveLeft (rotSquare n (rotSquare n (rotSquare n b)))).1
      ≠ rotSquare n (rotSquare n (rotSquare n b)).
Proof.
  intros Hn Hsq. unfold changesBoard. simpl.
  rewrite (moveUp_square n) by done.
  rewrite <- (moveUp_fixed_iff n b Hsq). split.
  - by intros (b' & sc & [= <- <-] & Hne).
  - intros Hne. by eexists _, _.
Qed.

Lemma changesBoard_Down n b :
  (0 < n)%nat → isSquare n b →
  changesBoard b Down ↔ (moveLeft (rotSquare n b)).1 ≠ rotSquare n b.
Proof.
  intros Hn Hsq. unfold changesBoard. simpl.
  rewrite (moveDown_square n) by done.
  rewrite <- (moveDown_fixed_iff n b Hsq). split.
  - by intros (b' & sc & [= <- <-] & Hne).
  - intros Hne. by eexists _, _.
Qed.

Lemma square_row n b i :
  isSquare n b → (i < n)%nat →
  ∃ row, b !! i = Some row ∧ length row = n ∧ ∀ c, row !! c = cellAt b i c.
Proof.
  intros Hsq Hi.
  destruct (lookup_lt_is_Some_2 b i) as [row Hrow]; [destruct Hsq; lia|].
  exists row. split; [done|]. split; [by eapply isSquare_lookup|].
  intros c. by rewrite (cellAt_row _ _ _ _ Hrow).
Qed.

(** A board with both an empty cell and a tile can be moved: along the
    row of the empty cell, or along the column of the tile. *)
Lemma mixed_board_moves n b :
  isSquare n b → hasEmptyCell b →
  (∃ k l x, cellAt b k l = Some x ∧ x ≠ 0) →
  ∃ d, changesBoard b d.
Proof.
  intros Hsq (i & j & Hz) (k & l & x & Hx & Hxnz).
  destruct (cellAt_lt _ _ _ _ _ Hsq Hz) as [Hi Hj].
  destruct (cellAt_lt _ _ _ _ _ Hsq Hx) as [Hk Hl].
  destruct (cellAt_is_Some _ _ _ _ Hsq Hi Hl) as [y Hy].
  destruct (decide (y = 0)) as [->|Hynz].
  - pose proof (rotSquare_square _ _ Hsq) as Hsq1.
    pose proof (rotSquare_square _ _ Hsq1) as Hsq2.
    pose proof (rotSquare_square _ _ Hsq2) as Hsq3.
    destruct (square_row _ _ l Hsq1 Hl) as (col & Hcol & Hlen & Hcells).
    assert (0 ∈ col) as H0.
    { apply list_elem_of_lookup. exists (n - 1 - i)%nat.
      rewrite Hcells, cellAt_rotSquare by (done || lia).
      by replace (n - 1 - (n - 1 - i))%nat with i by lia. }
    assert (x ∈ col) as Hxin.
    { apply list_elem_of_lookup. exists (n - 1 - k)%nat.
      rewrite Hcells, cellAt_rotSquare by (done || lia).
      by replace (n - 1 - (n - 1 - k))%nat with k by lia. }
    destruct (slideRow_mixed col x H0 Hxin Hxnz) as [Hc|Hc].
    + exists Down. apply (changesBoard_Down n); [lia|done|].
      by apply (moveLeft_row_changes _ l col).
    + exists Up. apply (changesBoard_Up n); [lia|done|].
      apply (moveLeft_row_changes _ (n - 1 - l)%nat (reverse col)); [|done].
      destruct (square_row _ _ (n - 1 - l) Hsq3) as (col' & Hcol' & Hlen' & Hcells');
        [lia|].
      rewrite Hcol'. f_equal.
      apply (list_eq_same_length _ _ n); [by rewrite length_reverse|done|].
      intros c a a' Hc' Ha Ha'.
      rewrite Hcells', cellAt_rot3 in Ha by (done || lia).
      rewrite reverse_lookup, Hcells, Hlen, cellAt_rotSquare in Ha'
        by (done || lia).
      replace (n - 1 - (n - 1 - l))%nat with l in Ha by lia.
      replace (n - 1 - (n - S c))%nat with c in Ha' by lia.
      congruence.
  - destruct (square_row _ _ i Hsq Hi) as (row & Hrow & Hlen & Hcells).
    assert (0 ∈ row) as H0.
    { apply list_elem_of_lookup. exists j. by rewrite Hcells. }
    assert (y ∈ row) as Hyin.
    { apply list_elem_of_lookup. exists l. by rewrite Hcells. }
    destruct (slideRow_mixed row y H0 Hyin Hynz) as [Hc|Hc].
    + exists Left. apply changesBoard_Left.
      by apply (moveLeft_row_changes _ i row).
    + exists Right. apply changesBoard_Right.
      by apply (moveRight_row_changes _ i row).
Qed.

(** A full board without equal neighbours is a fixed point of all four
    moves. *)
Lemma stuck_board_fixed n b d :
  isSquare n b →
  ¬ hasEmptyCell b → ¬ hasEqualRightNeighbour b →
  ¬ hasEqualBottomNeighbour b →
  ¬ changesBoard b d.
Proof.
  intros Hsq Hfull Hright Hbottom.
  destruct n as [|n].
  { pose proof (isSquare_0 _ Hsq) as ->.
    intros (b' & sc & Hmove & Hne).
    destruct d; [done..| |]; injection Hmove as Hmove;
      unfold moveLeft, moveRight in Hmove; simpl in Hmove; by simplify_eq. }
  pose proof (rotSquare_square _ _ Hsq) as Hsq1.
  pose proof (rotSquare_square _ _ Hsq1) as Hsq2.
  destruct d.
  - rewrite (changesBoard_Up (S n)) by (done || lia).
    intros Hne. apply Hne. apply moveLeft_fixed_cells.
    + by rewrite !hasEmptyCell_rotSquare.
    + by rewrite hasEqualRight_rot3.
  - rewrite (changesBoard_Down (S n)) by (done || lia).
    intros Hne. apply Hne. apply moveLeft_fixed_cells.
    + by rewrite hasEmptyCell_rotSquare.
    + intros H. by apply hasEqualRight_rotSquare in H.
  - rewrite changesBoard_Left. intros Hne. apply Hne.
    by apply moveLeft_fixed_cells.
  - rewrite changesBoard_Right. intros Hne. apply Hne.
    by apply moveRight_fixed_cells.
Qed.
End movability.

(** * The transition function *)

Section transition.
Implicit Types (s : GameState) (b : Board) (d : Direction) (u v : Q).

(** A move that changes a board leaves an empty cell behind. *)
Lemma moveLeft_leaves_empty b : (moveLeft b).1 ≠ b → hasEmptyCell (moveLeft b).1.
Proof.
  intros (i & row & Hi & Hrow)%moveLeft_changed_row.
  apply (hasEmptyCell_row _ i (slideRow row).1).
  - by rewrite moveLeft_rows, list_lookup_fmap, Hi.
  - by apply slideRow_changed_has_zero.
Qed.

Lemma moveRight_leaves_empty b :
  (moveRight b).1 ≠ b → hasEmptyCell (moveRight b).1.
Proof.
  intros (i & row & Hi & Hrow)%moveRight_changed_row.
  apply (hasEmptyCell_row _ i (reverse (slideRow (reverse row)).1)).
  - by rewrite moveRight_rows, list_lookup_fmap, Hi.
  - by apply elem_of_reverse, slideRow_changed_has_zero.
Qed.

Lemma changed_board_has_empty n b d b' sc :
  isSquare n b → applyDirection b d = Some (b', sc) → b' ≠ b →
  hasEmptyCell b'.
Proof.
  intros Hsq Hmove Hne.
  destruct n as [|n].
  { pose proof (isSquare_0 _ Hsq) as ->.
    destruct d; [done..| |]; injection Hmove as Hmove;
      unfold moveLeft, moveRight in Hmove; simpl in Hmove; by simplify_eq. }
  pose proof (rotSquare_square _ _ Hsq) as Hsq1.
  pose proof (rotSquare_square _ _ Hsq1) as Hsq2.
  pose proof (rotSquare_square _ _ Hsq2) as Hsq3.
  destruct d; simpl in Hmove.
  - rewrite (moveUp_square (S n)) in Hmove by (done || lia).
    injection Hmove as <- <-.
    rewrite (moveUp_fixed_iff _ _ Hsq) in Hne.
    apply hasEmptyCell_rotSquare; [by apply moveLeft_square|].
    by apply moveLeft_leaves_empty.
  - rewrite (moveDown_square (S n)) in Hmove by (done || lia).
    injection Hmove as <- <-.
    rewrite (moveDown_fixed_iff _ _ Hsq) in Hne.
    pose proof (moveLeft_square _ _ Hsq1) as HsqL.
    pose proof (rotSquare_square _ _ HsqL) as HsqL1.
    pose proof (rotSquare_square _ _ HsqL1) as HsqL2.
    do 3 (apply hasEmptyCell_rotSquare; [done|]).
    by apply moveLeft_leaves_empty.
  - injection Hmove as Hmove. apply (f_equal fst) in Hmove.
    simpl in Hmove. subst b'. by apply moveLeft_leaves_empty.
  - injection Hmove as Hmove. apply (f_equal fst) in Hmove.
    simpl in Hmove. subst b'. by apply moveRight_leaves_empty.
Qed.

(** Whatever the draws, an accepted move of a state that has already
    won produces a state whose [won] flag is off. *)
Lemma makeMove_resets_won s d u v s' :
  won s = true → makeMove s d u v = Some s' → s' ≠ s → won s' = false.
Proof.
  intros Hwon Hmove Hne. unfold makeMove in Hmove.
  destruct (gameOver s); [by simplify_eq|].
  destruct (applyDirection (board s) d) as [result|]; [|done].
  simpl in Hmove.
  destruct (boardsEqual result.1 (board s)) as [[]|]; simplify_eq/=.
  destruct (addRandomTile result.1 u v); simplify_eq/=.
  by rewrite Hwon.
Qed.
End transition.

(** * [addRandomTile] on the heap *)

Section heap_model.
Implicit Types (h : heap) (p r l : loc) (b : Board) (rows : list loc).

Local Arguments alloc : simpl never.

Lemma alloc_spec h o :
  h !! (alloc h o).2 = None ∧ (alloc h o).1 = <[(alloc h o).2 := o]> h.
Proof.
  unfold alloc. simpl. split; [|done].
  apply not_elem_of_dom, is_fresh.
Qed.

Lemma readRow_weaken h h' r cells :
  h ⊆ h' → readRow h r = Some cells → readRow h' r = Some cells.
Proof.
  intros Hsub. unfold readRow.
  destruct (h !! r) as [o|] eqn:Hr; [|done].
  by rewrite (lookup_weaken _ _ _ _ Hr Hsub).
Qed.

Lemma readRows_weaken h h' p rows :
  h ⊆ h' → readRows h p = Some rows → readRows h' p = Some rows.
Proof.
  intros Hsub. unfold readRows.
  destruct (h !! p) as [o|] eqn:Hp; [|done].
  by rewrite (lookup_weaken _ _ _ _ Hp Hsub).
Qed.

Lemma mapM_readRow_weaken h h' rows b :
  h ⊆ h' → mapM (readRow h) rows = Some b → mapM (readRow h') rows = Some b.
Proof.
  intros Hsub Hb%mapM_Some_1. apply mapM_Some_2.
  eapply Forall2_impl; [done|]. intros r cells. by apply readRow_weaken.
Qed.

(** Objects that exist before a call still exist, unchanged, in any
    larger heap; so does the board they make up. *)
Lemma readBoard_weaken h h' p b :
  h ⊆ h' → readBoard h p = Some b → readBoard h' p = Some b.
Proof.
  intros Hsub. unfold readBoard.
  destruct (readRows h p) as [rows|] eqn:Hrows; [|done]. simpl.
  rewrite (readRows_weaken _ _ _ _ Hsub Hrows). simpl.
  by apply mapM_readRow_weaken.
Qed.

(** The copy consists of new, pairwise distinct arrays with the same
    contents, and leaves the old heap in place. *)
Lemma copyRows_spec h rows b :
  mapM (readRow h) rows = Some b →
  ∃ h1 rows', copyRows h rows = Some (h1, rows')
    ∧ h ⊆ h1
    ∧ mapM (readRow h1) rows' = Some b
    ∧ Forall (λ r, h !! r = None) rows'
    ∧ NoDup rows'.
Proof.
  revert h b. induction rows as [|r rest IH]; intros h b Hb.
  - simpl in Hb. injection Hb as <-. exists h, [].
    repeat split; [done|constructor|constructor].
  - cbn [mapM] in Hb. cbn [copyRows].
    destruct (readRow h r) as [cells|] eqn:Hr; [|done]. simpl in Hb.
    destruct (mapM (readRow h) rest) as [b0|] eqn:Hrest; [|done].
    simpl in Hb. injection Hb as <-. cbn [mbind option_bind].
    destruct (alloc_spec h (RowObj cells)) as [Hfresh Hh1].
    destruct (alloc h (RowObj cells)) as [h1 r'] eqn:Halloc.
    simpl in Hfresh, Hh1.
    assert (h ⊆ h1) as Hsub by (subst h1; by apply insert_subseteq).
    destruct (IH h1 b0) as (h2 & rest' & Hcopy & Hsub2 & Hread & Hnew & Hnd).
    { by eapply mapM_readRow_weaken. }
    rewrite Hcopy. simpl. exists h2, (r' :: rest').
    assert (h1 !! r' = Some (RowObj cells)) as Hr'
      by (subst h1; apply lookup_insert_eq).
    repeat split.
    + by etrans.
    + cbn [mapM].
      assert (readRow h2 r' = Some cells) as ->.
      { unfold readRow. by rewrite (lookup_weaken _ _ _ _ Hr' Hsub2). }
      simpl. by rewrite Hread.
    + constructor; [done|]. eapply Forall_impl; [done|].
      intros x Hx. simpl in Hx. by eapply lookup_weaken_None.
    + constructor; [|done]. intros Hin.
      apply (proj1 (list.Forall_forall _ _) Hnew) in Hin. congruence.
Qed.

Lemma mapM_readRow_lookup h rows b i r :
  mapM (readRow h) rows = Some b → rows !! i = Some r →
  ∃ cells, b !! i = Some cells ∧ readRow h r = Some cells.
Proof.
  intros Hb%mapM_Some_1 Hi.
  destruct (Forall2_lookup_l _ _ _ _ _ Hb Hi) as (cells & ? & ?).
  by exists cells.
Qed.

(** The heap-level function computes the value-level one, and every
    object of the initial heap survives unchanged. *)
Lemma addRandomTileH_refines h p b u v :
  readBoard h p = Some b → unitDraw u →
  ∃ h' p', addRandomTileH h p u v = Some (h', p')
    ∧ h ⊆ h'
    ∧ readBoard h' p' = addRandomTile b u v
    ∧ (getEmptyCells b = [] → h' = h ∧ p' = p).
Proof.
  intros Hb Hu. unfold addRandomTileH. rewrite Hb. cbn [mbind option_bind].
  destruct (decide (getEmptyCells b = [])) as [Hfull|Hne].
  { rewrite Hfull. simpl. exists h, p.
    by rewrite (addRandomTile_full _ _ _ Hfull). }
  destruct (addRandomTile_spawns b u v Hu Hne) as (i & j & Hlook & Hz & Hadd).
  rewrite bool_decide_eq_false_2 by (by destruct (getEmptyCells b)).
  rewrite Hlook. cbn [mbind option_bind].
  unfold readBoard in Hb.
  destruct (readRows h p) as [rows|] eqn:Hrows; [|done].
  cbn [mbind option_bind] in Hb |- *.
  destruct (copyRows_spec h rows b Hb)
    as (h1 & rows' & Hcopy & Hsub1 & Hread1 & Hnew & Hnd).
  rewrite Hcopy. cbn [mbind option_bind].
  destruct (alloc_spec h1 (BoardObj rows')) as [Hfresh Hh2].
  destruct (alloc h1 (BoardObj rows')) as [h2 newBoard] eqn:Halloc.
  simpl in Hfresh, Hh2.
  assert (h1 ⊆ h2) as Hsub2 by (subst h2; by apply insert_subseteq).
  unfold cellAt in Hz. destruct (b !! i) as [cells|] eqn:Hi; [|done].
  simpl in Hz.
  destruct (lookup_lt_is_Some_2 rows' i) as [r Hr].
  { rewrite (length_mapM _ _ _ Hread1). by eapply lookup_lt_Some. }
  rewrite Hr. cbn [mbind option_bind].
  destruct (mapM_readRow_lookup _ _ _ _ _ Hread1 Hr) as (cells' & Hi' & Hcells).
  assert (cells' = cells) as -> by congruence.
  rewrite (readRow_weaken _ _ _ _ Hsub2 Hcells). cbn [mbind option_bind].
  assert (h !! r = None) as Hrnew.
  { apply (proj1 (list.Forall_forall _ _) Hnew). by eapply list_elem_of_lookup_2. }
  assert (r ≠ newBoard) as Hrb.
  { intros ->. unfold readRow in Hcells. by rewrite Hfresh in Hcells. }
  eexists _, _. split; [done|]. split; [|split; [|done]].
  { apply insert_subseteq_r; [done|]. by etrans. }
  rewrite Hadd. unfold readBoard, readRows.
  rewrite lookup_insert_ne by done. subst h2. rewrite lookup_insert_eq.
  cbn [mbind option_bind].
  apply mapM_Some_2, Forall2_same_length_lookup_2.
  { unfold setCell. by rewrite length_alter, (length_mapM _ _ _ Hread1). }
  intros k rk rowk Hk Hrowk.
  destruct (mapM_readRow_lookup _ _ _ _ _ Hread1 Hk) as (ck & Hbk & Hck).
  unfold setCell in Hrowk. unfold readRow.
  destruct (decide (i = k)) as [<-|Hik].
  - assert (rk = r) as -> by congruence.
    rewrite lookup_insert_eq.
    rewrite list_lookup_alter_eq, Hi in Hrowk. by simplify_eq/=.
  - assert (r ≠ rk) as Hne'.
    { intros ->. by apply Hik, (NoDup_lookup rows' i k rk). }
    rewrite list_lookup_alter_ne in Hrowk by done.
    rewrite lookup_insert_ne by done.
    assert (rk ≠ newBoard) as Hkb.
    { intros ->. unfold readRow in Hck. by rewrite Hfresh in Hck. }
    rewrite lookup_insert_ne by done.
    unfold readRow in Hck. destruct (h1 !! rk) as [[]|]; congruence.
Qed.
End heap_model.

(** * The claims *)

(** C1 (the claim: once the victory flag is true, [makeMove] never returns
    a state where it is false).  The code computes the new flag as
    [!state.won && hasWon(newBoard)]: on the won state [wonState], moving
    left is an accepted move and the returned state has [won = false],
    although the 2048 tile is still on the board. *)
Theorem makeMove_victory_reverts :
  won wonState = true
  ∧ makeMove wonState Left (1 # 2) (1 # 2) =
      Some {| board := [[2048; 0; 0; 0]; [0; 0; 0; 0]; [2; 0; 0; 0]; [0; 0; 0; 0]];
              score := 20480; gameOver := false; won := false |}.
Proof. split; reflexivity. Qed.

(** C2: on a state that is not terminal, a move whose resulting board
    equals the current board returns the input state itself: same board,
    score and flags, whatever the random draws (no tile is spawned). *)
Theorem makeMove_noop_unchanged s d u v sc :
  gameOver s = false →
  applyDirection (board s) d = Some (board s, sc) →
  makeMove s d u v = Some s.
Proof.
  intros Hover Hmove. unfold makeMove. rewrite Hover, Hmove. simpl.
  by rewrite boardsEqual_refl.
Qed.

Lemma makeMove_noop_unchanged_witness :
  let s := {| board := [[2; 4; 0; 0]; [8; 0; 0; 0]; [2; 0; 0; 0]; [0; 0; 0; 0]];
              score := 12; gameOver := false; won := false |} in
  gameOver s = false
  ∧ applyDirection (board s) Left = Some (board s, 0)
  ∧ makeMove s Left (1 # 2) (1 # 2) = Some s.
Proof.
  intros s. split; [reflexivity|]. split; [reflexivity|].
  apply (makeMove_noop_unchanged s Left (1 # 2) (1 # 2) 0); reflexivity.
Defined.

(** C3: a terminal state is absorbing: [makeMove] returns it unchanged for
    every direction, every board content and every draw. *)
Theorem makeMove_terminal_absorbing s d u v :
  gameOver s = true → makeMove s d u v = Some s.
Proof. intros Hover. unfold makeMove. by rewrite Hover. Qed.

Lemma makeMove_terminal_absorbing_witness :
  let s := {| board := [[2; 4]; [4; 2]]; score := 16;
              gameOver := true; won := false |} in
  gameOver s = true ∧ makeMove s Up (1 # 2) (1 # 2) = Some s.
Proof.
  intros s. split; [reflexivity|].
  apply (makeMove_terminal_absorbing s Up (1 # 2) (1 # 2)). reflexivity.
Defined.

(** C5, as the specification states it, fails on the board without tiles:
    [canMove] answers [true] (there are empty cells), yet no direction
    changes the board. *)
Lemma canMove_empty_board_counterexample :
  ¬ (canMove (createEmptyBoard 4) = true
     ↔ ∃ d, changesBoard (createEmptyBoard 4) d).
Proof.
  intros [Hmove _]. destruct (Hmove eq_refl) as (d & b' & sc & Hd & Hne).
  destruct d; vm_compute in Hd; injection Hd as <- _; by apply Hne.
Qed.

(** C5, amended: on every square board [canMove] is true exactly when
    there is an empty cell, or a cell equal to its right neighbour, or a
    cell equal to its bottom neighbour; a direction that changes the board
    exists only if [canMove] is true; and on a board holding at least one
    tile, [canMove] is true exactly when some direction changes the
    board. *)
Theorem canMove_characterization n b :
  isSquare n b →
  (canMove b = true ↔
     hasEmptyCell b ∨ hasEqualRightNeighbour b ∨ hasEqualBottomNeighbour b)
  ∧ ((∃ d, changesBoard b d) → canMove b = true)
  ∧ ((∃ i j x, cellAt b i j = Some x ∧ x ≠ 0) →
     (canMove b = true ↔ ∃ d, changesBoard b d)).
Proof.
  intros Hsq.
  assert ((∃ d, changesBoard b d) → canMove b = true) as Hback.
  { intros [d Hd]. destruct (canMove b) eqn:Hcan; [done|]. exfalso.
    assert (¬ (hasEmptyCell b ∨ hasEqualRightNeighbour b
               ∨ hasEqualBottomNeighbour b)) as Hstuck.
    { rewrite <- (canMove_spec n b Hsq). congruence. }
    apply (stuck_board_fixed n b d Hsq); tauto. }
  split; [by apply (canMove_spec n)|]. split; [done|].
  intros Htile. split; [|done].
  intros Hcan. apply (canMove_spec n b Hsq) in Hcan.
  destruct (decide (getEmptyCells b = [])) as [Hfull|Hempty].
  - assert (¬ hasEmptyCell b) as Hne.
    { intros Hc. by apply getEmptyCells_nonempty in Hc. }
    destruct Hcan as [?|[Hright|Hbottom]]; [done| |].
    + exists Left. by apply changesBoard_Left, moveLeft_merges.
    + exists Up.
      destruct Hbottom as (i & j & x & Hij & HSij).
      destruct (cellAt_lt _ _ _ _ _ Hsq Hij) as [Hi _].
      apply (changesBoard_Up n); [lia|done|].
      pose proof (rotSquare_square _ _ Hsq) as Hsq1.
      pose proof (rotSquare_square _ _ Hsq1) as Hsq2.
      apply moveLeft_merges.
      * by rewrite !hasEmptyCell_rotSquare.
      * apply (hasEqualRight_rot3 n); [done|]. by exists i, j, x.
  - apply (mixed_board_moves n); [done| |done].
    by apply getEmptyCells_nonempty.
Qed.

Lemma canMove_characterization_witness :
  let b := [[2; 0; 0; 0]; [0; 4; 0; 0]; [0; 0; 0; 0]; [0; 0; 0; 2]] in
  isSquare 4 b
  ∧ (canMove b = true ↔
       hasEmptyCell b ∨ hasEqualRightNeighbour b ∨ hasEqualBottomNeighbour b)
  ∧ ((∃ d, changesBoard b d) → canMove b = true)
  ∧ ((∃ i j x, cellAt b i j = Some x ∧ x ≠ 0) →
     (canMove b = true ↔ ∃ d, changesBoard b d)).
Proof.
  intros b.
  assert (isSquare 4 b) as Hsq by (split; [reflexivity|repeat constructor]).
  split; [exact Hsq|]. exact (canMove_characterization 4 b Hsq).
Defined.

(** C7: on an n-by-n board with n at least 1, [rotateBoard] succeeds, the
    rotated cell at (r, c) is the original cell at (n-1-c, r), and four
    rotations in a row return the original board. *)
Theorem rotateBoard_four_times n b :
  (0 < n)%nat → isSquare n b →
  (∃ b1, rotateBoard b = Some b1 ∧ isSquare n b1
         ∧ ∀ r c, (r < n)%nat → (c < n)%nat →
                  cellAt b1 r c = cellAt b (n - 1 - c) r)
  ∧ (b1 ← rotateBoard b; b2 ← rotateBoard b1; b3 ← rotateBoard b2;
     rotateBoard b3) = Some b.
Proof.
  intros Hn Hsq.
  pose proof (rotSquare_square _ _ Hsq) as Hsq1.
  pose proof (rotSquare_square _ _ Hsq1) as Hsq2.
  pose proof (rotSquare_square _ _ Hsq2) as Hsq3.
  split.
  - exists (rotSquare n b). split; [by apply rotateBoard_square|].
    split; [done|]. intros r c Hr Hc. by apply cellAt_rotSquare.
  - rewrite (rotateBoard_square n b Hn Hsq). simpl.
    rewrite (rotateBoard_square n _ Hn Hsq1). simpl.
    rewrite (rotateBoard_square n _ Hn Hsq2). simpl.
    rewrite (rotateBoard_square n _ Hn Hsq3).
    by rewrite rotSquare_four.
Qed.

Lemma rotateBoard_four_times_witness :
  let b := [[1; 2; 3]; [4; 5; 6]; [7; 8; 9]] in
  (0 < 3)%nat ∧ isSquare 3 b
  ∧ (b1 ← rotateBoard b; b2 ← rotateBoard b1; b3 ← rotateBoard b2;
     rotateBoard b3) = Some b.
Proof.
  intros b.
  assert (0 < 3)%nat as Hn by lia.
  assert (isSquare 3 b) as Hsq by (split; [reflexivity|repeat constructor]).
  split; [exact Hn|]. split; [exact Hsq|].
  exact (proj2 (rotateBoard_four_times 3 b Hn Hsq)).
Defined.

(** C8, as the specification states it, fails as soon as a merge happens:
    for [2,2] the output [4,0] sums to 4, while the filtered input sums to
    4 and the merged pair adds another 4. *)
Lemma slideRow_sum_counterexample :
  ¬ (sumList (slideRow [2; 2]).1 =
       sumList (filter (λ cell, cell ≠ 0) [2; 2]) + (slideRow [2; 2]).2).
Proof. intros H. vm_compute in H. discriminate. Qed.

(** C9: on a square board, a move that changes the board leaves at least
    one empty cell; so when [makeMove] accepts the move, [addRandomTile]
    does not take its full-board branch, and the board of the new state is
    the moved board with one empty cell filled by a 2 or a 4. *)
Theorem accepted_move_spawns_tile n s d b' u v :
  isSquare n (board s) → gameOver s = false → unitDraw u →
  fst <$> applyDirection (board s) d = Some b' → b' ≠ board s →
  hasEmptyCell b' ∧ getEmptyCells b' ≠ []
  ∧ ∃ nb, board <$> makeMove s d u v = Some nb
          ∧ addRandomTile b' u v = Some nb
          ∧ spawnedFrom b' nb.
Proof.
  intros Hsq Hover Hu Hmove Hne.
  destruct (applyDirection (board s) d) as [[b'' sc]|] eqn:Hd; [|done].
  simpl in Hmove. injection Hmove as ->.
  pose proof (changed_board_has_empty _ _ _ _ _ Hsq Hd Hne) as Hempty.
  pose proof (proj2 (getEmptyCells_nonempty b') Hempty) as Hcells.
  split; [done|]. split; [done|].
  destruct (addRandomTile_spawnedFrom b' u v Hu Hcells) as (nb & Hadd & Hsp).
  exists nb. split; [|done].
  unfold makeMove. rewrite Hover, Hd. simpl.
  rewrite (boardsEqual_square n b' (board s)); [|by eapply applyDirection_square|done].
  rewrite bool_decide_eq_false_2 by done. simpl. by rewrite Hadd.
Qed.

Lemma accepted_move_spawns_tile_witness :
  let s := {| board := [[2; 2; 0; 0]; [0; 4; 0; 0]; [0; 0; 0; 0]; [0; 0; 0; 8]];
              score := 0; gameOver := false; won := false |} in
  let b' := [[4; 0; 0; 0]; [4; 0; 0; 0]; [0; 0; 0; 0]; [8; 0; 0; 0]] in
  isSquare 4 (board s) ∧ gameOver s = false ∧ unitDraw (1 # 2)
  ∧ fst <$> applyDirection (board s) Left = Some b' ∧ b' ≠ board s
  ∧ hasEmptyCell b' ∧ getEmptyCells b' ≠ [].
Proof.
  intros s b'.
  assert (isSquare 4 (board s)) as Hsq
    by (split; [reflexivity|repeat constructor]).
  assert (unitDraw (1 # 2)) as Hu by (split; reflexivity || discriminate).
  assert (b' ≠ board s) as Hne by discriminate.
  destruct (accepted_move_spawns_tile 4 s Left b' (1 # 2) (1 # 2)
              Hsq eq_refl Hu eq_refl Hne) as (Hempty & Hcells & _).
  split; [exact Hsq|]. split; [reflexivity|]. split; [exact Hu|].
  split; [reflexivity|]. split; [exact Hne|].
  split; [exact Hempty|exact Hcells].
Defined.

(** C10: [addRandomTile] returns either its argument (when no cell is
    empty; then it is the same reference and the heap is unchanged) or a
    board that differs from it in one coordinate, which held 0 and now holds
    2 or 4, all other cells being as before.  In both cases every array that
    existed before the call, hence the input board, is unchanged. *)
Theorem addRandomTile_frame h p b u v :
  readBoard h p = Some b → unitDraw u →
  ∃ h' p' b',
    addRandomTileH h p u v = Some (h', p')
    ∧ readBoard h' p' = Some b'
    ∧ addRandomTile b u v = Some b'
    ∧ (∀ l o, h !! l = Some o → h' !! l = Some o)
    ∧ readBoard h' p = Some b
    ∧ ((getEmptyCells b = [] ∧ b' = b ∧ p' = p ∧ h' = h)
       ∨ (getEmptyCells b ≠ [] ∧ spawnedFrom b b')).
Proof.
  intros Hb Hu.
  destruct (addRandomTileH_refines h p b u v Hb Hu)
    as (h' & p' & Hrun & Hsub & Hread & Hfull).
  destruct (decide (getEmptyCells b = [])) as [Hnil|Hne].
  - destruct (Hfull Hnil) as [-> ->].
    exists h, p, b. rewrite (addRandomTile_full _ _ _ Hnil).
    repeat split; try done. by left.
  - destruct (addRandomTile_spawnedFrom b u v Hu Hne) as (b' & Hadd & Hsp).
    exists h', p', b'. rewrite Hread. repeat split; try done.
    + intros l o Hl. by eapply lookup_weaken.
    + by eapply readBoard_weaken.
    + by right.
Qed.

Lemma addRandomTile_frame_witness :
  let h : heap :=
    <[3%positive := BoardObj [1%positive; 2%positive]]>
      (<[2%positive := RowObj [0; 4]]> (<[1%positive := RowObj [2; 0]]> ∅)) in
  let b := [[2; 0]; [0; 4]] in
  readBoard h 3%positive = Some b ∧ unitDraw (1 # 2)
  ∧ ∃ h' p', addRandomTileH h 3%positive (1 # 2) (1 # 2) = Some (h', p')
             ∧ readBoard h' p' = Some [[2; 0]; [2; 4]]
             ∧ readBoard h' 3%positive = Some b.
Proof.
  intros h b.
  assert (readBoard h 3%positive = Some b) as Hb by (vm_compute; reflexivity).
  assert (unitDraw (1 # 2)) as Hu by (split; reflexivity || discriminate).
  split; [exact Hb|]. split; [exact Hu|].
  destruct (addRandomTile_frame h 3%positive b (1 # 2) (1 # 2) Hb Hu)
    as (h' & p' & b' & Hrun & Hread & Hadd & _ & Hold & _).
  exists h', p'. split; [exact Hrun|]. split; [|exact Hold].
  rewrite Hread. f_equal.
  assert (addRandomTile b (1 # 2) (1 # 2) = Some [[2; 0]; [2; 4]]) as Hval
    by reflexivity.
  congruence.
Defined.


(** * Further properties of the row reduction *)

Section slide_row_more.
Implicit Types (row l : list Z) (x y : Z).

Local Arguments scanPairs : simpl never.

Lemma slideRow_sum row : sumList (slideRow row).1 = sumList row.
Proof.
  rewrite slideRow_fst, sumList_app, sumList_replicate_0. unfold mergedOf.
  rewrite scanPairs_sum, sumList_filter_nonzero. lia.
Qed.

Lemma slideRow_snd row :
  (slideRow row).2 =
    sumList (emitGain <$> scanPairs (filter (λ cell, cell ≠ 0) row)).
Proof. by rewrite slideRow_reduceLine. Qed.

Lemma sumList_reverse l : sumList (reverse l) = sumList l.
Proof.
  induction l as [|x l IH]; [done|].
  rewrite reverse_cons, sumList_app, IH. simpl. lia.
Qed.

(** Every emitted value is an input value or the double of one. *)
Lemma scanPairs_values l x :
  x ∈ emitValue <$> scanPairs l → x ∈ l ∨ ∃ y, y ∈ l ∧ x = y * 2.
Proof.
  induction l as [|z|z rest IH|z y rest Hzy IH] using scan_ind.
  - by intros ?%elem_of_nil.
  - by left.
  - rewrite scanPairs_merge, fmap_cons. cbn [emitValue].
    intros [->|Hin]%elem_of_cons.
    + right. exists z. split; [left|done].
    + destruct (IH Hin) as [?|(y & ? & ?)].
      * left. by do 2 right.
      * right. exists y. split; [by do 2 right|done].
  - rewrite scanPairs_pass, fmap_cons by done. cbn [emitValue].
    intros [->|Hin]%elem_of_cons; [left; left|].
    destruct (IH Hin) as [?|(y' & ? & ?)].
    + left. by right.
    + right. exists y'. split; [by right|done].
Qed.

(** Every input value is emitted, as it is or doubled. *)
Lemma scanPairs_covers l y :
  y ∈ l →
  y ∈ emitValue <$> scanPairs l ∨ y * 2 ∈ emitValue <$> scanPairs l.
Proof.
  induction l as [|z|z rest IH|z w rest Hzw IH] using scan_ind.
  - by intros ?%elem_of_nil.
  - by left.
  - rewrite scanPairs_merge, fmap_cons. cbn [emitValue].
    intros [->|[->|Hin]%elem_of_cons]%elem_of_cons.
    + right. left.
    + right. left.
    + destruct (IH Hin); [left|right]; by right.
  - rewrite scanPairs_pass, fmap_cons by done. cbn [emitValue].
    intros [->|Hin]%elem_of_cons; [left; left|].
    destruct (IH Hin); [left|right]; by right.
Qed.

Lemma scanPairs_gain_nonneg l :
  Forall (λ x, 0 ≤ x) l → 0 ≤ sumList (emitGain <$> scanPairs l).
Proof.
  induction l as [|z|z rest IH|z w rest Hzw IH] using scan_ind;
    [done..| |]; intros Hl.
  - rewrite scanPairs_merge, fmap_cons, sumList_cons. cbn [emitGain].
    apply Forall_cons in Hl as [Hz Hl]. apply Forall_cons in Hl as [_ Hl].
    specialize (IH Hl). lia.
  - rewrite scanPairs_pass, fmap_cons, sumList_cons by done. cbn [emitGain].
    apply Forall_cons in Hl as [_ Hl]. specialize (IH Hl). lia.
Qed.

(** A scan as long as its input merged nothing. *)
Lemma scanPairs_no_merge_gain l :
  length (scanPairs l) = length l → sumList (emitGain <$> scanPairs l) = 0.
Proof.
  induction l as [|z|z rest IH|z w rest Hzw IH] using scan_ind; [done..| |].
  - rewrite scanPairs_merge. pose proof (scanPairs_length rest). simpl. lia.
  - rewrite scanPairs_pass by done. cbn [length]. intros [= Hlen].
    rewrite fmap_cons, sumList_cons. cbn [emitGain]. rewrite IH by done. lia.
Qed.

Lemma filter_nonzero_replicate_0 k :
  filter (λ cell : Z, cell ≠ 0) (replicate k 0) = [].
Proof.
  induction k as [|k IH]; [done|]. simpl.
  by rewrite filter_cons_False by (intros H; by apply H).
Qed.

(** A row that [slideRow] leaves as it is gains nothing. *)
Lemma slideRow_fixed_no_gain row :
  (slideRow row).1 = row → (slideRow row).2 = 0.
Proof.
  intros Hfix. rewrite slideRow_snd. apply scanPairs_no_merge_gain.
  apply (f_equal (filter (λ cell, cell ≠ 0))) in Hfix.
  rewrite slideRow_fst, filter_app, filter_nonzero_replicate_0, app_nil_r
    in Hfix.
  rewrite (filter_nonzero_id _ (mergedOf_nonzero row)) in Hfix.
  apply (f_equal length) in Hfix. unfold mergedOf in Hfix.
  by rewrite length_fmap in Hfix.
Qed.
End slide_row_more.

(** X4: [slideRow] keeps the length of the row and packs the tiles to the
    left: in its result the non-zero cells are exactly those before some
    position [k]. *)
Theorem slideRow_packs_left (row : list Z) :
  length (slideRow row).1 = length row
  ∧ ∃ k, (k ≤ length row)%nat
         ∧ ∀ i x, (slideRow row).1 !! i = Some x → (x ≠ 0 ↔ (i < k)%nat).
Proof.
  split; [apply slideRow_length|].
  exists (length (mergedOf row)). split; [apply mergedOf_length|].
  intros i x. rewrite slideRow_fst. intros Hi.
  pose proof (mergedOf_nonzero row) as Hnz.
  destruct (decide (i < length (mergedOf row))%nat) as [Hlt|Hge].
  - rewrite lookup_app_l in Hi by done. split; [done|]. intros _.
    apply list_elem_of_lookup_2 in Hi.
    by apply (proj1 (list.Forall_forall _ _) Hnz) in Hi.
  - rewrite lookup_app_r in Hi by lia.
    apply lookup_replicate in Hi as [-> _]. split; [done|lia].
Qed.

(** * Cells of a board *)

Section cells.
Implicit Types (b : Board) (row : list Z) (P : Z → Prop) (n i j : nat).

Lemma cellAt_elem b i j x :
  cellAt b i j = Some x → ∃ row, b !! i = Some row ∧ x ∈ row.
Proof.
  unfold cellAt. destruct (b !! i) as [row|]; [|done]. simpl.
  intros Hj. exists row. split; [done|]. by eapply list_elem_of_lookup_2.
Qed.

Lemma elem_cellAt b i row x :
  b !! i = Some row → x ∈ row → ∃ j, cellAt b i j = Some x.
Proof.
  intros Hi [j Hj]%list_elem_of_lookup_1. exists j.
  by rewrite (cellAt_row _ _ _ _ Hi).
Qed.

Lemma allCells_rotSquare n P b :
  isSquare n b → allCells P b → allCells P (rotSquare n b).
Proof.
  intros Hsq Hall r c x Hrc.
  destruct (cellAt_lt _ _ _ _ _ (rotSquare_square _ _ Hsq) Hrc) as [Hr Hc].
  rewrite cellAt_rotSquare in Hrc by done. by eapply Hall.
Qed.

Lemma someCell_rotSquare n P b :
  isSquare n b → someCell P b → someCell P (rotSquare n b).
Proof.
  intros Hsq (i & j & x & Hij & Hx).
  destruct (cellAt_lt _ _ _ _ _ Hsq Hij) as [Hi Hj].
  exists j, (n - 1 - i)%nat, x. split; [|done].
  rewrite cellAt_rotSquare by (done || lia).
  by replace (n - 1 - (n - 1 - i))%nat with i by lia.
Qed.

(** A left move only produces zeros, input values and doubles of input
    values. *)
Lemma allCells_moveLeft P b :
  P 0 → (∀ x, P x → P (x * 2)) → allCells P b → allCells P (moveLeft b).1.
Proof.
  intros H0 Hdouble Hall i j x. rewrite moveLeft_rows.
  intros (out & Hi & Hx)%cellAt_elem.
  rewrite list_lookup_fmap in Hi.
  destruct (b !! i) as [row|] eqn:Hrow; simplify_eq/=.
  rewrite slideRow_fst in Hx.
  apply elem_of_app in Hx as [Hx|Hx].
  - apply scanPairs_values in Hx as [Hx|(y & Hy & ->)].
    + apply list_elem_of_filter in Hx as [_ Hx].
      destruct (elem_cellAt _ _ _ _ Hrow Hx) as [j' Hj']. by eapply Hall.
    + apply list_elem_of_filter in Hy as [_ Hy].
      destruct (elem_cellAt _ _ _ _ Hrow Hy) as [j' Hj'].
      apply Hdouble. by eapply Hall.
  - by apply elem_of_replicate in Hx as [-> _].
Qed.

Lemma allCells_reverse_rows P b :
  allCells P b → allCells P (reverse <$> b).
Proof.
  intros Hall i j x (r & Hi & Hx)%cellAt_elem.
  rewrite list_lookup_fmap in Hi.
  destruct (b !! i) as [row|] eqn:Hrow; simplify_eq/=.
  rewrite elem_of_reverse in Hx.
  destruct (elem_cellAt _ _ _ _ Hrow Hx) as [j' Hj']. by eapply Hall.
Qed.

Lemma moveRight_as_moveLeft b :
  moveRight b =
    (reverse <$> (moveLeft (reverse <$> b)).1, (moveLeft (reverse <$> b)).2).
Proof.
  unfold moveRight, moveLeft. rewrite moveRight_fold, moveLeft_fold. simpl.
  by rewrite <- !list_fmap_compose.
Qed.

Lemma allCells_moveRight P b :
  P 0 → (∀ x, P x → P (x * 2)) → allCells P b → allCells P (moveRight b).1.
Proof.
  intros H0 Hdouble Hall. rewrite moveRight_as_moveLeft. simpl.
  by apply allCells_reverse_rows, allCells_moveLeft, allCells_reverse_rows.
Qed.

(** A value that a left move finds in the board is still there
    afterwards, as it is or doubled. *)
Lemma someCell_moveLeft P b :
  (∀ x, P x → x ≠ 0 ∧ P (x * 2)) → someCell P b → someCell P (moveLeft b).1.
Proof.
  intros HP (i & j & x & Hij & Hx).
  destruct (cellAt_elem _ _ _ _ Hij) as (row & Hrow & Hin).
  assert ((moveLeft b).1 !! i = Some (slideRow row).1) as Hout
    by (by rewrite moveLeft_rows, list_lookup_fmap, Hrow).
  assert (x ∈ filter (λ cell, cell ≠ 0) row) as Hf.
  { apply list_elem_of_filter. split; [by apply HP|done]. }
  destruct (scanPairs_covers _ _ Hf) as [Hc|Hc].
  - destruct (elem_cellAt (moveLeft b).1 i (slideRow row).1 x Hout)
      as [j' Hj']; [rewrite slideRow_fst; apply elem_of_app; by left|].
    by exists i, j', x.
  - destruct (elem_cellAt (moveLeft b).1 i (slideRow row).1 (x * 2) Hout)
      as [j' Hj']; [rewrite slideRow_fst; apply elem_of_app; by left|].
    exists i, j', (x * 2). split; [done|]. by apply HP.
Qed.

Lemma someCell_reverse_rows P b :
  someCell P b → someCell P (reverse <$> b).
Proof.
  intros (i & j & x & Hij & Hx).
  destruct (cellAt_elem _ _ _ _ Hij) as (row & Hrow & Hin).
  destruct (elem_cellAt (reverse <$> b) i (reverse row) x) as [j' Hj'].
  - by rewrite list_lookup_fmap, Hrow.
  - by apply elem_of_reverse.
  - by exists i, j', x.
Qed.

Lemma someCell_moveRight P b :
  (∀ x, P x → x ≠ 0 ∧ P (x * 2)) → someCell P b → someCell P (moveRight b).1.
Proof.
  intros HP Hsome. rewrite moveRight_as_moveLeft. simpl.
  by apply someCell_reverse_rows, someCell_moveLeft, someCell_reverse_rows.
Qed.

(** All four moves, on a square board. *)
Lemma applyDirection_allCells n P b d b' sc :
  isSquare n b → P 0 → (∀ x, P x → P (x * 2)) → allCells P b →
  applyDirection b d = Some (b', sc) → allCells P b'.
Proof.
  intros Hsq H0 Hdouble Hall Hmove.
  destruct n as [|n].
  { pose proof (isSquare_0 _ Hsq) as ->.
    destruct d; [done..| |]; injection Hmove as Hmove;
      unfold moveLeft, moveRight in Hmove; simpl in Hmove; by simplify_eq. }
  pose proof (rotSquare_square _ _ Hsq) as Hsq1.
  pose proof (rotSquare_square _ _ Hsq1) as Hsq2.
  pose proof (rotSquare_square _ _ Hsq2) as Hsq3.
  destruct d; simpl in Hmove.
  - rewrite (moveUp_square (S n)) in Hmove by (done || lia).
    injection Hmove as <- <-.
    apply allCells_rotSquare; [by apply moveLeft_square|].
    apply allCells_moveLeft; [done..|].
    by do 3 (apply allCells_rotSquare; [done|]).
  - rewrite (moveDown_square (S n)) in Hmove by (done || lia).
    injection Hmove as <- <-.
    pose proof (moveLeft_square _ _ Hsq1) as HsqL.
    pose proof (rotSquare_square _ _ HsqL) as HsqL1.
    pose proof (rotSquare_square _ _ HsqL1) as HsqL2.
    do 3 (apply allCells_rotSquare; [done|]).
    apply allCells_moveLeft; [done..|].
    by apply allCells_rotSquare.
  - injection Hmove as Hmove. apply (f_equal fst) in Hmove.
    simpl in Hmove. subst b'. by apply allCells_moveLeft.
  - injection Hmove as Hmove. apply (f_equal fst) in Hmove.
    simpl in Hmove. subst b'. by apply allCells_moveRight.
Qed.

Lemma applyDirection_someCell n P b d b' sc :
  isSquare n b → (∀ x, P x → x ≠ 0 ∧ P (x * 2)) → someCell P b →
  applyDirection b d = Some (b', sc) → someCell P b'.
Proof.
  intros Hsq HP Hsome Hmove.
  destruct n as [|n].
  { pose proof (isSquare_0 _ Hsq) as ->.
    destruct d; [done..| |]; injection Hmove as Hmove;
      unfold moveLeft, moveRight in Hmove; simpl in Hmove; by simplify_eq. }
  pose proof (rotSquare_square _ _ Hsq) as Hsq1.
  pose proof (rotSquare_square _ _ Hsq1) as Hsq2.
  pose proof (rotSquare_square _ _ Hsq2) as Hsq3.
  destruct d; simpl in Hmove.
  - rewrite (moveUp_square (S n)) in Hmove by (done || lia).
    injection Hmove as <- <-.
    apply someCell_rotSquare; [by apply moveLeft_square|].
    apply someCell_moveLeft; [done|].
    by do 3 (apply someCell_rotSquare; [done|]).
  - rewrite (moveDown_square (S n)) in Hmove by (done || lia).
    injection Hmove as <- <-.
    pose proof (moveLeft_square _ _ Hsq1) as HsqL.
    pose proof (rotSquare_square _ _ HsqL) as HsqL1.
    pose proof (rotSquare_square _ _ HsqL1) as HsqL2.
    do 3 (apply someCell_rotSquare; [done|]).
    apply someCell_moveLeft; [done|].
    by apply someCell_rotSquare.
  - injection Hmove as Hmove. apply (f_equal fst) in Hmove.
    simpl in Hmove. subst b'. by apply someCell_moveLeft.
  - injection Hmove as Hmove. apply (f_equal fst) in Hmove.
    simpl in Hmove. subst b'. by apply someCell_moveRight.
Qed.
End cells.

(** * Score and sum of tiles *)

Section sums.
Implicit Types (b : Board) (row l : list Z) (n i j : nat).

Lemma moveLeft_snd b :
  (moveLeft b).2 = sumList ((λ row, (slideRow row).2) <$> b).
Proof. unfold moveLeft. by rewrite moveLeft_fold. Qed.

Lemma sumList_nonneg l : Forall (λ x, 0 ≤ x) l → 0 ≤ sumList l.
Proof. induction 1; simpl; lia. Qed.

Lemma sumList_all_zero l : Forall (λ x, x = 0) l → sumList l = 0.
Proof. induction 1; simpl; lia. Qed.

Lemma moveLeft_gain_nonneg b :
  allCells (λ x, 0 ≤ x) b → 0 ≤ (moveLeft b).2.
Proof.
  intros Hall. rewrite moveLeft_snd. apply sumList_nonneg.
  apply Forall_fmap, list.Forall_forall.
  intros row [i Hi]%list_elem_of_lookup_1. simpl.
  rewrite slideRow_snd. apply scanPairs_gain_nonneg, list.Forall_forall.
  intros x [_ Hx]%list_elem_of_filter.
  destruct (elem_cellAt _ _ _ _ Hi Hx) as [j Hj]. by eapply Hall.
Qed.

(** A move of a board without negative cells gains a non-negative
    score. *)
Lemma applyDirection_gain_nonneg n b d b' sc :
  isSquare n b → allCells (λ x, 0 ≤ x) b →
  applyDirection b d = Some (b', sc) → 0 ≤ sc.
Proof.
  intros Hsq Hall Hmove.
  destruct n as [|n].
  { pose proof (isSquare_0 _ Hsq) as ->.
    destruct d; [done..| |]; injection Hmove as Hmove;
      unfold moveLeft, moveRight in Hmove; simpl in Hmove; by simplify_eq. }
  pose proof (rotSquare_square _ _ Hsq) as Hsq1.
  pose proof (rotSquare_square _ _ Hsq1) as Hsq2.
  destruct d; simpl in Hmove.
  - rewrite (moveUp_square (S n)) in Hmove by (done || lia).
    injection Hmove as <- <-. apply moveLeft_gain_nonneg.
    by do 3 (apply allCells_rotSquare; [done|]).
  - rewrite (moveDown_square (S n)) in Hmove by (done || lia).
    injection Hmove as <- <-. apply moveLeft_gain_nonneg.
    by apply allCells_rotSquare.
  - injection Hmove as Hmove. apply (f_equal snd) in Hmove.
    simpl in Hmove. subst sc. by apply moveLeft_gain_nonneg.
  - injection Hmove as Hmove. apply (f_equal snd) in Hmove.
    rewrite moveRight_as_moveLeft in Hmove. simpl in Hmove. subst sc.
    by apply moveLeft_gain_nonneg, allCells_reverse_rows.
Qed.

Lemma moveLeft_fixed_no_gain b : (moveLeft b).1 = b → (moveLeft b).2 = 0.
Proof.
  intros Hfix. rewrite moveLeft_snd. apply sumList_all_zero.
  apply Forall_fmap, list.Forall_forall.
  intros row [i Hi]%list_elem_of_lookup_1. simpl.
  apply slideRow_fixed_no_gain.
  assert ((moveLeft b).1 !! i = Some (slideRow row).1) as Hl
    by (by rewrite moveLeft_rows, list_lookup_fmap, Hi).
  rewrite Hfix in Hl. congruence.
Qed.

Lemma reverse_rows_involutive b : reverse <$> (reverse <$> b) = b.
Proof.
  rewrite <- list_fmap_compose. rewrite <- (list_fmap_id b) at 2.
  apply list_fmap_ext. intros i row _. simpl. apply reverse_involutive.
Qed.

Lemma boardSum_moveLeft b : boardSum (moveLeft b).1 = boardSum b.
Proof.
  unfold boardSum. rewrite moveLeft_rows, <- list_fmap_compose. f_equal.
  apply list_fmap_ext. intros i row _. simpl. apply slideRow_sum.
Qed.

Lemma boardSum_reverse_rows b : boardSum (reverse <$> b) = boardSum b.
Proof.
  unfold boardSum. rewrite <- list_fmap_compose. f_equal.
  apply list_fmap_ext. intros i row _. simpl. apply sumList_reverse.
Qed.

Lemma sumList_fmap_add {A} (f g : A → Z) (l : list A) :
  sumList ((λ a, f a + g a) <$> l) = sumList (f <$> l) + sumList (g <$> l).
Proof.
  induction l as [|a l IH]; [done|].
  rewrite !fmap_cons, !sumList_cons, IH. lia.
Qed.

Lemma sumList_lookup_total row :
  sumList ((λ c, row !!! c) <$> seq 0 (length row)) = sumList row.
Proof.
  induction row as [|x row IH]; [done|].
  cbn [length seq]. rewrite fmap_cons, <- fmap_S_seq, <- list_fmap_compose.
  rewrite !sumList_cons. by rewrite <- IH.
Qed.

(** Summing by columns or by rows gives the same total. *)
Lemma boardSum_rotSquare n b :
  isSquare n b → boardSum (rotSquare n b) = boardSum b.
Proof.
  intros [_ Hrows]. unfold boardSum, rotSquare.
  rewrite <- list_fmap_compose.
  induction Hrows as [|row rest Hrow Hrest IH].
  - apply sumList_all_zero, Forall_fmap, list.Forall_forall. by intros c _.
  - rewrite fmap_cons, sumList_cons, <- IH.
    rewrite <- (sumList_lookup_total row), Hrow, <- sumList_fmap_add.
    f_equal. apply list_fmap_ext. intros i c _. simpl.
    rewrite !sumList_reverse. by rewrite sumList_cons.
Qed.

Lemma sumList_insert row j x v :
  row !! j = Some x → sumList (<[j := v]> row) = sumList row - x + v.
Proof.
  revert j. induction row as [|y row IH]; intros [|j] Hj; simplify_eq/=.
  - lia.
  - rewrite (IH j Hj). lia.
Qed.

Lemma boardSum_setCell b i j x v :
  cellAt b i j = Some x → boardSum (setCell b i j v) = boardSum b - x + v.
Proof.
  unfold cellAt, setCell, boardSum. revert i.
  induction b as [|row b IH]; intros [|i] Hij; simplify_eq/=.
  - rewrite (sumList_insert _ _ _ _ Hij). lia.
  - rewrite (IH i Hij). lia.
Qed.

(** No move changes the sum of the tiles of a square board. *)
Lemma boardSum_applyDirection n b d b' sc :
  isSquare n b → applyDirection b d = Some (b', sc) →
  boardSum b' = boardSum b.
Proof.
  intros Hsq Hmove.
  destruct n as [|n].
  { pose proof (isSquare_0 _ Hsq) as ->.
    destruct d; [done..| |]; injection Hmove as Hmove;
      unfold moveLeft, moveRight in Hmove; simpl in Hmove; by simplify_eq. }
  pose proof (rotSquare_square _ _ Hsq) as Hsq1.
  pose proof (rotSquare_square _ _ Hsq1) as Hsq2.
  pose proof (rotSquare_square _ _ Hsq2) as Hsq3.
  destruct d; simpl in Hmove.
  - rewrite (moveUp_square (S n)) in Hmove by (done || lia).
    injection Hmove as <- <-.
    rewrite (boardSum_rotSquare (S n)) by (by apply moveLeft_square).
    rewrite boardSum_moveLeft.
    by rewrite !(boardSum_rotSquare (S n)).
  - rewrite (moveDown_square (S n)) in Hmove by (done || lia).
    injection Hmove as <- <-.
    pose proof (moveLeft_square _ _ Hsq1) as HsqL.
    pose proof (rotSquare_square _ _ HsqL) as HsqL1.
    pose proof (rotSquare_square _ _ HsqL1) as HsqL2.
    rewrite !(boardSum_rotSquare (S n)) by done.
    rewrite boardSum_moveLeft.
    by rewrite (boardSum_rotSquare (S n)).
  - injection Hmove as Hmove. apply (f_equal fst) in Hmove.
    simpl in Hmove. subst b'. apply boardSum_moveLeft.
  - injection Hmove as Hmove. apply (f_equal fst) in Hmove.
    rewrite moveRight_as_moveLeft in Hmove. simpl in Hmove. subst b'.
    by rewrite boardSum_reverse_rows, boardSum_moveLeft, boardSum_reverse_rows.
Qed.

(** A move that gives back the board it was given gains nothing. *)
Lemma applyDirection_fixed_no_gain n b d sc :
  isSquare n b → applyDirection b d = Some (b, sc) → sc = 0.
Proof.
  intros Hsq Hmove.
  destruct n as [|n].
  { pose proof (isSquare_0 _ Hsq) as ->.
    destruct d; [done..| |]; injection Hmove as Hmove;
      unfold moveLeft, moveRight in Hmove; simpl in Hmove; by simplify_eq. }
  destruct d; simpl in Hmove.
  - rewrite (moveUp_square (S n)) in Hmove by (done || lia).
    injection Hmove as Hb <-.
    by apply moveLeft_fixed_no_gain, (moveUp_fixed_iff (S n) b Hsq).
  - rewrite (moveDown_square (S n)) in Hmove by (done || lia).
    injection Hmove as Hb <-.
    by apply moveLeft_fixed_no_gain, (moveDown_fixed_iff (S n) b Hsq).
  - injection Hmove as Hmove.
    assert ((moveLeft b).2 = 0) as Hgain
      by (apply moveLeft_fixed_no_gain; by rewrite Hmove).
    by rewrite Hmove in Hgain.
  - injection Hmove as Hmove. rewrite moveRight_as_moveLeft in Hmove.
    injection Hmove as Hb <-. apply moveLeft_fixed_no_gain.
    rewrite <- Hb at 2. by rewrite reverse_rows_involutive.
Qed.
End sums.

(** * The range in which scores are exact *)

Section score_range.
Implicit Types (b : Board) (row l : list Z) (n : nat).

Local Arguments scanPairs : simpl never.

(** Without negative values the score of a scan is at most the sum of
    its input: a merge result [2 * x] stands for two inputs [x]. *)
Lemma scanPairs_gain_le l :
  Forall (λ x, 0 ≤ x) l → sumList (emitGain <$> scanPairs l) ≤ sumList l.
Proof.
  induction l as [|z|z rest IH|z w rest Hzw IH] using scan_ind; intros Hl.
  - done.
  - apply Forall_cons in Hl as [Hz _]. simpl. lia.
  - rewrite scanPairs_merge, fmap_cons, !sumList_cons. cbn [emitGain].
    apply Forall_cons in Hl as [_ Hl]. apply Forall_cons in Hl as [_ Hl].
    specialize (IH Hl). lia.
  - rewrite scanPairs_pass, fmap_cons, !sumList_cons by done. cbn [emitGain].
    apply Forall_cons in Hl as [Hz Hl]. specialize (IH Hl).
    rewrite sumList_cons in IH. lia.
Qed.

Lemma filter_nonneg row :
  Forall (λ x, 0 ≤ x) row → Forall (λ x, 0 ≤ x) (filter (λ cell, cell ≠ 0) row).
Proof.
  intros Hrow. apply list.Forall_forall. intros x [_ Hx]%list_elem_of_filter.
  by apply (proj1 (list.Forall_forall _ _) Hrow).
Qed.

(** On a safe row the score stays between 0 and the sum of the row. *)
Lemma slideRow_gain_range row :
  Forall (λ x, 0 ≤ x) row → 0 ≤ (slideRow row).2 ≤ sumList row.
Proof.
  intros Hrow. rewrite slideRow_snd.
  pose proof (filter_nonneg _ Hrow) as Hf. split.
  - by apply scanPairs_gain_nonneg.
  - rewrite <- (sumList_filter_nonzero row). by apply scanPairs_gain_le.
Qed.

Lemma allCells_cons (P : Z → Prop) row b :
  allCells P (row :: b) ↔ Forall P row ∧ allCells P b.
Proof.
  split.
  - intros Hall. split.
    + apply list.Forall_forall. intros x [j Hj]%list_elem_of_lookup_1.
      by apply (Hall 0%nat j).
    + intros i j x Hx. by apply (Hall (S i) j).
  - intros [Hrow Hall] [|i] j x Hx.
    + apply (proj1 (list.Forall_forall _ _) Hrow).
      apply (list_elem_of_lookup_2 row j). exact Hx.
    + by eapply Hall.
Qed.

(** On a board without negative cells the score of a left move stays
    between 0 and the sum of the board. *)
Lemma moveLeft_gain_range b :
  allCells (λ x, 0 ≤ x) b → 0 ≤ (moveLeft b).2 ≤ boardSum b.
Proof.
  intros Hall. split; [by apply moveLeft_gain_nonneg|].
  rewrite moveLeft_snd. unfold boardSum.
  induction b as [|row b IH]; [done|].
  apply allCells_cons in Hall as [Hrow Hall].
  rewrite !fmap_cons, !sumList_cons.
  pose proof (slideRow_gain_range row Hrow). specialize (IH Hall). lia.
Qed.

Lemma safeBoard_reverse_rows b : safeBoard b → safeBoard (reverse <$> b).
Proof.
  intros [Hall Hsum]. split; [by apply allCells_reverse_rows|].
  by rewrite boardSum_reverse_rows.
Qed.

Lemma safeBoard_rotSquare n b :
  isSquare n b → safeBoard b → safeBoard (rotSquare n b).
Proof.
  intros Hsq [Hall Hsum]. split; [by apply allCells_rotSquare|].
  by rewrite (boardSum_rotSquare n).
Qed.

Lemma safeBoard_moveLeft_range b :
  safeBoard b → 0 ≤ (moveLeft b).2 ≤ 2 ^ 53.
Proof. intros [Hall Hsum]. pose proof (moveLeft_gain_range b Hall). lia. Qed.
End score_range.

(** * Outcomes of [makeMove] *)

Section make_move.
Implicit Types (s : GameState) (b : Board) (d : Direction) (u v : Q).
Implicit Types (P : Z → Prop) (n i j : nat).

(** On a non-empty square board no move throws. *)
Lemma applyDirection_total n b d :
  (0 < n)%nat → isSquare n b → is_Some (applyDirection b d).
Proof.
  intros Hn Hsq. destruct d; simpl; [| |done..].
  - by rewrite (moveUp_square n).
  - by rewrite (moveDown_square n).
Qed.

(** Whenever [addRandomTile] returns on a board with an empty cell, it has
    filled one empty cell with a 2 or a 4. *)
Lemma addRandomTile_Some_spawned b u v nb :
  getEmptyCells b ≠ [] → addRandomTile b u v = Some nb → spawnedFrom b nb.
Proof.
  intros Hne. unfold addRandomTile.
  rewrite bool_decide_eq_false_2 by (by destruct (getEmptyCells b)).
  destruct (getEmptyCells b !! _) as [[i j]|] eqn:Hij; [|done]. simpl.
  intros [= <-].
  apply list_elem_of_lookup_2, elem_of_getEmptyCells in Hij.
  exists i, j, (randomValue v).
  split; [done|]. split; [apply randomValue_cases|]. split; [done|].
  split; [by eapply cellAt_setCell_eq|].
  intros i' j' Hne'. by apply cellAt_setCell_ne.
Qed.

(** The two ways [makeMove] returns on a square board: with the state it
    was given, or with the moved board plus one new tile. *)
Lemma makeMove_inv n s d u v s' :
  isSquare n (board s) → makeMove s d u v = Some s' →
  s' = s
  ∨ ∃ b' sc,
      gameOver s = false
      ∧ applyDirection (board s) d = Some (b', sc)
      ∧ b' ≠ board s ∧ isSquare n b'
      ∧ spawnedFrom b' (board s')
      ∧ score s' = score s + sc
      ∧ gameOver s' = negb (canMove (board s'))
      ∧ won s' = negb (won s) && hasWon (board s').
Proof.
  intros Hsq. unfold makeMove.
  destruct (gameOver s) eqn:Hover; [intros [= <-]; by left|].
  destruct (applyDirection (board s) d) as [[b' sc]|] eqn:Hmove; [|done].
  pose proof (applyDirection_square _ _ _ _ _ Hsq Hmove) as Hsq'.
  simpl. rewrite (boardsEqual_square n b' (board s)) by done. simpl.
  case_bool_decide as Hne; [intros [= <-]; by left|].
  destruct (addRandomTile b' u v) as [nb|] eqn:Hadd; [|done]. simpl.
  intros [= <-]. right. exists b', sc. simpl.
  repeat (split; [done|]). split; [|done].
  apply (addRandomTile_Some_spawned b' u v); [|done].
  apply getEmptyCells_nonempty.
  exact (changed_board_has_empty _ _ _ _ _ Hsq Hmove Hne).
Qed.

Lemma spawnedFrom_square n b nb :
  isSquare n b → spawnedFrom b nb → isSquare n nb.
Proof. intros Hsq (i & j & val & _ & _ & -> & _). by apply setCell_square. Qed.

Lemma spawnedFrom_allCells P b nb :
  P 2 → P 4 → allCells P b → spawnedFrom b nb → allCells P nb.
Proof.
  intros H2 H4 Hall (i & j & val & _ & Hval & _ & Hij & Hother) i' j' x Hx.
  destruct (decide ((i', j') = (i, j))) as [[= -> ->]|Hne].
  - rewrite Hij in Hx. injection Hx as <-. by destruct Hval as [->| ->].
  - rewrite (Hother _ _ Hne) in Hx. by eapply Hall.
Qed.

Lemma spawnedFrom_someCell P b nb :
  (∀ x, P x → x ≠ 0) → someCell P b → spawnedFrom b nb → someCell P nb.
Proof.
  intros HP (i' & j' & x & Hx & HPx) (i & j & val & Hz & _ & _ & _ & Hother).
  exists i', j', x. split; [|done]. rewrite Hother; [done|].
  intros [= -> ->]. rewrite Hz in Hx. injection Hx as <-. by apply HP in HPx.
Qed.

Lemma spawnedFrom_boardSum b nb :
  spawnedFrom b nb →
  boardSum nb = boardSum b + 2 ∨ boardSum nb = boardSum b + 4.
Proof.
  intros (i & j & val & Hz & Hval & -> & _).
  rewrite (boardSum_setCell _ _ _ _ _ Hz). destruct Hval as [->| ->]; lia.
Qed.

(** [hasWon] looks at every cell. *)
Lemma hasWon_someCell b :
  hasWon b = true ↔ someCell (λ x, 2048 ≤ x) b.
Proof.
  unfold hasWon. rewrite existsb_exists. split.
  - intros (row & [i Hi]%list_elem_of_In%list_elem_of_lookup_1 & Hrow).
    apply existsb_exists in Hrow as (x & Hx%list_elem_of_In & Hbig).
    apply bool_decide_eq_true in Hbig.
    destruct (elem_cellAt _ _ _ _ Hi Hx) as [j Hj]. by exists i, j, x.
  - intros (i & j & x & Hij & Hbig).
    destruct (cellAt_elem _ _ _ _ Hij) as (row & Hi & Hx).
    exists row. split; [by eapply list_elem_of_In, list_elem_of_lookup_2|].
    apply existsb_exists. exists x.
    split; [by apply list_elem_of_In|by apply bool_decide_eq_true].
Qed.

(** On a square board with a tile, [canMove] tells whether some move
    changes the board. *)
Lemma canMove_iff_movable n b :
  isSquare n b → someCell (λ x, x ≠ 0) b →
  canMove b = true ↔ ∃ d, changesBoard b d.
Proof.
  intros Hsq (i0 & j0 & x0 & Hx0 & Hnz). split.
  - intros Hcan%(canMove_spec n b Hsq).
    destruct (decide (getEmptyCells b = [])) as [Hfull|Hempty].
    + assert (¬ hasEmptyCell b) as Hne
        by (intros Hc; by apply getEmptyCells_nonempty in Hc).
      destruct Hcan as [?|[Hright|Hbottom]]; [done| |].
      * exists Left. by apply changesBoard_Left, moveLeft_merges.
      * exists Up. destruct Hbottom as (i & j & x & Hij & HSij).
        destruct (cellAt_lt _ _ _ _ _ Hsq Hij) as [Hi _].
        apply (changesBoard_Up n); [lia|done|].
        pose proof (rotSquare_square _ _ Hsq) as Hsq1.
        pose proof (rotSquare_square _ _ Hsq1) as Hsq2.
        apply moveLeft_merges.
        -- by rewrite !hasEmptyCell_rotSquare.
        -- apply (hasEqualRight_rot3 n); [done|]. by exists i, j, x.
    + apply (mixed_board_moves n); [done|by apply getEmptyCells_nonempty|].
      by exists i0, j0, x0.
  - intros [d Hd]. destruct (canMove b) eqn:Hcan; [done|]. exfalso.
    assert (¬ (hasEmptyCell b ∨ hasEqualRightNeighbour b
               ∨ hasEqualBottomNeighbour b)) as Hstuck.
    { rewrite <- (canMove_spec n b Hsq). congruence. }
    apply (stuck_board_fixed n b d Hsq); tauto.
Qed.
End make_move.


(** * Properties of the transition function *)

Lemma allCells_Forall (P : Z → Prop) (b : Board) :
  Forall (Forall P) b → allCells P b.
Proof.
  intros Hall i j x (row & Hi & Hx)%cellAt_elem.
  apply list_elem_of_lookup_2 in Hi.
  apply (proj1 (list.Forall_forall _ _) Hall) in Hi.
  by apply (proj1 (list.Forall_forall _ _) Hi) in Hx.
Qed.

Lemma sampleState_square : isSquare 4 (board sampleState).
Proof. split; [reflexivity|repeat constructor]. Qed.

Lemma sampleState_move :
  makeMove sampleState Left (1 # 2) (1 # 2) = Some sampleNext.
Proof. reflexivity. Qed.

Lemma unitDraw_half : unitDraw (1 # 2).
Proof. split; [discriminate|reflexivity]. Qed.

Lemma makeMove_defined (n : nat) (s : GameState) (d : Direction) (u v : Q) :
  (0 < n)%nat → isSquare n (board s) → unitDraw u →
  is_Some (makeMove s d u v).
Proof.
  intros Hn Hsq Hu.
  unfold makeMove. destruct (gameOver s); [done|].
  destruct (applyDirection_total n (board s) d Hn Hsq) as [[b' sc] Hmove].
  rewrite Hmove. simpl.
  rewrite (boardsEqual_square n b' (board s));
    [|by eapply applyDirection_square|done].
  simpl. case_bool_decide; [done|].
  destruct (decide (getEmptyCells b' = [])) as [Hfull|Hne].
  - by rewrite (addRandomTile_full _ _ _ Hfull).
  - destruct (addRandomTile_spawnedFrom b' u v Hu Hne) as (nb & -> & _).
    done.
Qed.

(** X9: on a square board a move that returns the board it was given
    gains no score, in each of the four directions. *)
Theorem noop_move_gains_nothing (n : nat) (b : Board) (d : Direction) (sc : Z) :
  isSquare n b → applyDirection b d = Some (b, sc) → sc = 0.
Proof. apply applyDirection_fixed_no_gain. Qed.

Lemma noop_move_gains_nothing_witness :
  let b := [[2; 4; 0; 0]; [8; 0; 0; 0]; [2; 0; 0; 0]; [0; 0; 0; 0]] in
  isSquare 4 b ∧ applyDirection b Left = Some (b, 0) ∧ 0 = 0.
Proof.
  intros b.
  assert (isSquare 4 b) as Hsq by (split; [reflexivity|repeat constructor]).
  split; [exact Hsq|]. split; [reflexivity|].
  exact (noop_move_gains_nothing 4 b Left 0 Hsq eq_refl).
Defined.

(** X10: on a square board of side at least 1, with a position draw in
    [0, 1), [makeMove] returns a state (nothing throws) whose board is
    square of the same side. *)
Theorem makeMove_total_shape (n : nat) (s : GameState) (d : Direction) (u v : Q) :
  (0 < n)%nat → isSquare n (board s) → unitDraw u →
  ∃ s', makeMove s d u v = Some s' ∧ isSquare n (board s').
Proof.
  intros Hn Hsq Hu.
  destruct (makeMove_defined n s d u v Hn Hsq Hu) as [s' Hs'].
  exists s'. split; [done|].
  destruct (makeMove_inv n s d u v s' Hsq Hs')
    as [->|(b' & sc & _ & _ & _ & Hsq' & Hsp & _)]; [done|].
  by eapply spawnedFrom_square.
Qed.

Lemma makeMove_total_shape_witness :
  (0 < 4)%nat ∧ isSquare 4 (board sampleState) ∧ unitDraw (1 # 2)
  ∧ ∃ s', makeMove sampleState Up (1 # 2) (1 # 2) = Some s'
          ∧ isSquare 4 (board s').
Proof.
  assert (0 < 4)%nat as Hn by lia.
  split; [exact Hn|]. split; [exact sampleState_square|].
  split; [exact unitDraw_half|].
  exact (makeMove_total_shape 4 sampleState Up (1 # 2) (1 # 2) Hn
           sampleState_square unitDraw_half).
Defined.

(** X11: on a square board without negative cells [makeMove] never
    decreases the score. *)
Theorem makeMove_score_monotone (n : nat) (s s' : GameState) (d : Direction)
    (u v : Q) :
  isSquare n (board s) → allCells (λ x, 0 ≤ x) (board s) →
  makeMove s d u v = Some s' → score s ≤ score s'.
Proof.
  intros Hsq Hall Hmove.
  destruct (makeMove_inv n s d u v s' Hsq Hmove)
    as [->|(b' & sc & _ & Hd & _ & _ & _ & -> & _)]; [done|].
  pose proof (applyDirection_gain_nonneg _ _ _ _ _ Hsq Hall Hd). lia.
Qed.

Lemma makeMove_score_monotone_witness :
  isSquare 4 (board sampleState)
  ∧ allCells (λ x, 0 ≤ x) (board sampleState)
  ∧ makeMove sampleState Left (1 # 2) (1 # 2) = Some sampleNext
  ∧ score sampleState ≤ score sampleNext.
Proof.
  assert (allCells (λ x, 0 ≤ x) (board sampleState)) as Hall.
  { apply allCells_Forall. repeat constructor; discriminate. }
  split; [exact sampleState_square|]. split; [exact Hall|].
  split; [exact sampleState_move|].
  exact (makeMove_score_monotone 4 sampleState sampleNext Left (1 # 2) (1 # 2)
           sampleState_square Hall sampleState_move).
Defined.

(** X12: on a square board [makeMove] either returns the state it was
    given or a board whose tiles sum to 2 or 4 more than before: sliding
    and merging keep the sum, the new tile adds its value. *)
Theorem makeMove_board_sum (n : nat) (s s' : GameState) (d : Direction)
    (u v : Q) :
  isSquare n (board s) → makeMove s d u v = Some s' →
  s' = s
  ∨ boardSum (board s') = boardSum (board s) + 2
  ∨ boardSum (board s') = boardSum (board s) + 4.
Proof.
  intros Hsq Hmove.
  destruct (makeMove_inv n s d u v s' Hsq Hmove)
    as [->|(b' & sc & _ & Hd & _ & _ & Hsp & _)]; [by left|right].
  rewrite <- (boardSum_applyDirection _ _ _ _ _ Hsq Hd).
  by apply spawnedFrom_boardSum.
Qed.

Lemma makeMove_board_sum_witness :
  isSquare 4 (board sampleState)
  ∧ makeMove sampleState Left (1 # 2) (1 # 2) = Some sampleNext
  ∧ (sampleNext = sampleState
     ∨ boardSum (board sampleNext) = boardSum (board sampleState) + 2
     ∨ boardSum (board sampleNext) = boardSum (board sampleState) + 4).
Proof.
  split; [exact sampleState_square|]. split; [exact sampleState_move|].
  exact (makeMove_board_sum 4 sampleState sampleNext Left (1 # 2) (1 # 2)
           sampleState_square sampleState_move).
Defined.

Lemma validTile_double (x : Z) : validTile x → validTile (x * 2).
Proof.
  intros [->|(k & Hk & ->)]; [by left|right].
  exists (k + 1). split; [lia|]. rewrite Z.pow_add_r by lia. lia.
Qed.

Lemma validTile_2 : validTile 2.
Proof. right. exists 1. split; [lia|reflexivity]. Qed.

Lemma validTile_4 : validTile 4.
Proof. right. exists 2. split; [lia|reflexivity]. Qed.

Lemma validTile_8 : validTile 8.
Proof. right. exists 3. split; [lia|reflexivity]. Qed.

(** X13: if every cell of a square board is empty or a power of two
    (2, 4, 8, ...), the same holds for the board of the state that
    [makeMove] returns. *)
Theorem makeMove_valid_tiles (n : nat) (s s' : GameState) (d : Direction)
    (u v : Q) :
  isSquare n (board s) → allCells validTile (board s) →
  makeMove s d u v = Some s' → allCells validTile (board s').
Proof.
  intros Hsq Hall Hmove.
  destruct (makeMove_inv n s d u v s' Hsq Hmove)
    as [->|(b' & sc & _ & Hd & _ & _ & Hsp & _)]; [done|].
  apply (spawnedFrom_allCells validTile b');
    [apply validTile_2|apply validTile_4| |done].
  apply (applyDirection_allCells n validTile (board s) d b' sc);
    [done|by left|apply validTile_double|done..].
Qed.

Lemma makeMove_valid_tiles_witness :
  isSquare 4 (board sampleState)
  ∧ allCells validTile (board sampleState)
  ∧ makeMove sampleState Left (1 # 2) (1 # 2) = Some sampleNext
  ∧ allCells validTile (board sampleNext).
Proof.
  assert (allCells validTile (board sampleState)) as Hall.
  { apply allCells_Forall.
    repeat first [apply Forall_nil_2|apply Forall_cons_2|by left
                 |apply validTile_2|apply validTile_4|apply validTile_8]. }
  split; [exact sampleState_square|]. split; [exact Hall|].
  split; [exact sampleState_move|].
  exact (makeMove_valid_tiles 4 sampleState sampleNext Left (1 # 2) (1 # 2)
           sampleState_square Hall sampleState_move).
Defined.

Lemma hasWon_makeMove (n : nat) (s s' : GameState) (d : Direction) (u v : Q) :
  isSquare n (board s) → makeMove s d u v = Some s' →
  hasWon (board s) = true → hasWon (board s') = true.
Proof.
  intros Hsq Hmove Hwon%hasWon_someCell. apply hasWon_someCell.
  destruct (makeMove_inv n s d u v s' Hsq Hmove)
    as [->|(b' & sc & _ & Hd & _ & _ & Hsp & _)]; [done|].
  apply (spawnedFrom_someCell _ b'); [intros x; lia| |done].
  apply (applyDirection_someCell n _ (board s) d b' sc); [done| |done..].
  intros x Hx. split; lia.
Qed.

(** X14: on a square board [hasWon] stays true across [makeMove]: a tile
    of 2048 or more is still on the board afterwards, as it is or
    doubled. *)
Theorem hasWon_persists (n : nat) (s s' : GameState) (d : Direction) (u v : Q) :
  isSquare n (board s) → makeMove s d u v = Some s' →
  hasWon (board s) = true → hasWon (board s') = true.
Proof. apply hasWon_makeMove. Qed.

Lemma hasWon_persists_witness :
  isSquare 4 (board wonState)
  ∧ (∃ s', makeMove wonState Left (1 # 2) (1 # 2) = Some s'
           ∧ hasWon (board wonState) = true ∧ hasWon (board s') = true).
Proof.
  assert (isSquare 4 (board wonState)) as Hsq
    by (split; [reflexivity|repeat constructor]).
  split; [exact Hsq|]. eexists. split; [reflexivity|]. split; [reflexivity|].
  exact (hasWon_persists 4 wonState _ Left (1 # 2) (1 # 2)
           Hsq eq_refl eq_refl).
Defined.

(** X15: when [makeMove] on a square board returns a new state, its
    [gameOver] flag is set exactly when no direction changes the new
    board. *)
Theorem makeMove_gameOver_exact (n : nat) (s s' : GameState) (d : Direction)
    (u v : Q) :
  isSquare n (board s) → makeMove s d u v = Some s' → s' ≠ s →
  gameOver s' = true ↔ ∀ d', ¬ changesBoard (board s') d'.
Proof.
  intros Hsq Hmove Hne.
  destruct (makeMove_inv n s d u v s' Hsq Hmove)
    as [->|(b' & sc & _ & Hd & _ & Hsq' & Hsp & _ & Hover & _)]; [done|].
  pose proof (spawnedFrom_square _ _ _ Hsq' Hsp) as Hsq''.
  assert (someCell (λ x, x ≠ 0) (board s')) as Htile.
  { destruct Hsp as (i & j & val & _ & Hval & _ & Hij & _).
    exists i, j, val. split; [done|]. destruct Hval as [->| ->]; lia. }
  pose proof (canMove_iff_movable n (board s') Hsq'' Htile) as Hcan.
  rewrite Hover, negb_true_iff. split.
  - intros Hfalse d' Hd'. rewrite (proj2 Hcan) in Hfalse; [done|by exists d'].
  - intros Hnone. destruct (canMove (board s')); [|done].
    destruct (proj1 Hcan eq_refl) as [d' Hd']. by destruct (Hnone d').
Qed.

Lemma makeMove_gameOver_exact_witness :
  isSquare 4 (board sampleState)
  ∧ makeMove sampleState Left (1 # 2) (1 # 2) = Some sampleNext
  ∧ sampleNext ≠ sampleState
  ∧ (gameOver sampleNext = true ↔ ∀ d', ¬ changesBoard (board sampleNext) d').
Proof.
  assert (sampleNext ≠ sampleState) as Hne by discriminate.
  split; [exact sampleState_square|]. split; [exact sampleState_move|].
  split; [exact Hne|].
  exact (makeMove_gameOver_exact 4 sampleState sampleNext Left (1 # 2) (1 # 2)
           sampleState_square sampleState_move Hne).
Defined.

(** * Counting cells *)

Section counting.
Implicit Types (b : Board) (row : list Z) (n i j : nat) (p q : nat * nat).

Lemma emptyInRow_sorted i j0 row :
  StronglySorted rowMajorLt (emptyInRow i j0 row).
Proof.
  revert j0. induction row as [|cell row IH]; intros j0; simpl.
  - constructor.
  - apply StronglySorted_app_2; [|case_bool_decide; repeat constructor|done].
    intros p q Hp (j & -> & _)%elem_of_emptyInRow.
    case_bool_decide; [|by apply elem_of_nil in Hp].
    apply list_elem_of_singleton in Hp as ->. right. simpl. lia.
Qed.

Lemma emptyFrom_sorted i0 b : StronglySorted rowMajorLt (emptyFrom i0 b).
Proof.
  revert i0. induction b as [|row b IH]; intros i0; simpl.
  - constructor.
  - apply StronglySorted_app_2; [|apply emptyInRow_sorted|done].
    intros p q (j & -> & _)%elem_of_emptyInRow
           (i & j' & -> & _)%elem_of_emptyFrom.
    left. simpl. lia.
Qed.

Lemma rowMajor_sorted_NoDup (l : list (nat * nat)) :
  StronglySorted rowMajorLt l → NoDup l.
Proof.
  induction 1 as [|p l _ IH Hall]; constructor; [|done].
  intros Hin. apply (proj1 (list.Forall_forall _ _) Hall) in Hin.
  destruct Hin as [?|[_ ?]]; lia.
Qed.

Lemma length_emptyInRow i j0 row :
  length (emptyInRow i j0 row) = length (filter (λ cell, cell = 0) row).
Proof.
  revert j0. induction row as [|cell row IH]; intros j0; [done|].
  simpl. rewrite length_app, IH, filter_cons.
  case_bool_decide; case_decide; done.
Qed.

Lemma length_emptyFrom i0 b :
  length (emptyFrom i0 b) = length (filter (λ cell, cell = 0) (concat b)).
Proof.
  revert i0. induction b as [|row b IH]; intros i0; [done|].
  simpl. by rewrite length_app, filter_app, length_app, length_emptyInRow, IH.
Qed.

Lemma length_filter_zero_nonzero (l : list Z) :
  Nat.add (length (filter (λ cell, cell = 0) l))
          (length (filter (λ cell, cell ≠ 0) l)) = length l.
Proof.
  induction l as [|x l IH]; [done|].
  rewrite !filter_cons. repeat case_decide; simpl; lia.
Qed.

(** Empty cells and tiles together are all the cells. *)
Lemma empty_plus_tiles b :
  Nat.add (length (getEmptyCells b)) (tileCount b) = length (concat b).
Proof.
  unfold getEmptyCells, tileCount. rewrite length_emptyFrom.
  apply length_filter_zero_nonzero.
Qed.

Lemma filter_nonzero_insert row j v :
  row !! j = Some 0 → v ≠ 0 →
  length (filter (λ cell, cell ≠ 0) (<[j := v]> row))
    = S (length (filter (λ cell, cell ≠ 0) row)).
Proof.
  revert j. induction row as [|x row IH]; intros [|j] Hj Hv; simplify_eq/=.
  - rewrite filter_cons_True, filter_cons_False by (done || lia). done.
  - rewrite !filter_cons. case_decide; simpl; by rewrite (IH j).
Qed.

Lemma tileCount_setCell b i j v :
  cellAt b i j = Some 0 → v ≠ 0 →
  tileCount (setCell b i j v) = S (tileCount b)
  ∧ length (concat (setCell b i j v)) = length (concat b).
Proof.
  unfold cellAt, setCell, tileCount. revert i.
  induction b as [|row b IH]; intros [|i] Hij Hv; simplify_eq/=.
  - rewrite !filter_app, !length_app, length_insert.
    by rewrite (filter_nonzero_insert _ _ _ Hij Hv).
  - destruct (IH i Hij Hv) as [IH1 IH2].
    rewrite !filter_app, !length_app, IH1, IH2. lia.
Qed.

Lemma spawnedFrom_counts b nb :
  spawnedFrom b nb →
  tileCount nb = S (tileCount b)
  ∧ S (length (getEmptyCells nb)) = length (getEmptyCells b).
Proof.
  intros (i & j & val & Hz & Hval & -> & _).
  assert (val ≠ 0) as Hnz by (destruct Hval as [->| ->]; lia).
  destruct (tileCount_setCell b i j val Hz Hnz) as [Ht Hc].
  split; [done|].
  pose proof (empty_plus_tiles b). pose proof (empty_plus_tiles (setCell b i j val)).
  lia.
Qed.

Lemma createEmptyBoard_square n : isSquare n (createEmptyBoard n).
Proof.
  unfold createEmptyBoard. split; [apply length_replicate|].
  apply Forall_replicate, length_replicate.
Qed.

Lemma createEmptyBoard_cell n i j :
  (i < n)%nat → (j < n)%nat → cellAt (createEmptyBoard n) i j = Some 0.
Proof.
  intros Hi Hj. unfold cellAt, createEmptyBoard.
  rewrite lookup_replicate_2 by done. simpl. by apply lookup_replicate_2.
Qed.

Lemma tileCount_zeros n m : tileCount (replicate n (replicate m 0)) = 0%nat.
Proof.
  unfold tileCount. induction n as [|n IH]; [done|]. simpl.
  by rewrite filter_app, length_app, IH, filter_nonzero_replicate_0.
Qed.

Lemma length_concat_replicate n m :
  length (concat (replicate n (replicate m (0 : Z)))) = (n * m)%nat.
Proof.
  induction n as [|n IH]; [done|]. simpl.
  rewrite length_app, IH, length_replicate. lia.
Qed.
End counting.

(** * Board construction and the start of a game *)

(** X1: [createEmptyBoard n] is an n-by-n board, its cells are exactly the
    coordinates below [n] and all hold 0, so it has no tile and
    [getEmptyCells] lists n times n coordinates. *)
Theorem createEmptyBoard_all_empty (n : nat) :
  isSquare n (createEmptyBoard n)
  ∧ (∀ i j, cellAt (createEmptyBoard n) i j = Some 0 ↔ (i < n)%nat ∧ (j < n)%nat)
  ∧ allCells (λ x, x = 0) (createEmptyBoard n)
  ∧ tileCount (createEmptyBoard n) = 0%nat
  ∧ length (getEmptyCells (createEmptyBoard n)) = (n * n)%nat.
Proof.
  pose proof (createEmptyBoard_square n) as Hsq.
  assert (allCells (λ x, x = 0) (createEmptyBoard n)) as Hall.
  { intros i j x Hx. destruct (cellAt_lt _ _ _ _ _ Hsq Hx) as [Hi Hj].
    rewrite createEmptyBoard_cell in Hx by done. congruence. }
  split; [done|]. split; [|split; [done|]].
  - intros i j. split; [by apply cellAt_lt|].
    intros [Hi Hj]. by apply createEmptyBoard_cell.
  - pose proof (empty_plus_tiles (createEmptyBoard n)) as Hcount.
    unfold createEmptyBoard in *.
    rewrite tileCount_zeros, length_concat_replicate in *.
    split; [done|lia].
Qed.

(** X2: [getEmptyCells] returns exactly the coordinates whose cell is 0,
    in strictly increasing row-major order, hence without repetition. *)
Theorem getEmptyCells_row_major (b : Board) :
  (∀ i j, (i, j) ∈ getEmptyCells b ↔ cellAt b i j = Some 0)
  ∧ StronglySorted rowMajorLt (getEmptyCells b)
  ∧ NoDup (getEmptyCells b).
Proof.
  split; [apply elem_of_getEmptyCells|].
  pose proof (emptyFrom_sorted 0 b) as Hsorted.
  split; [done|]. by apply rowMajor_sorted_NoDup.
Qed.

(** X16: with a position draw in [0, 1), [addRandomTile] returns a board:
    the one it was given when that has no empty cell, and otherwise a
    board with one tile more and one empty cell fewer. *)
Theorem addRandomTile_counts (b : Board) (u v : Q) :
  unitDraw u →
  ∃ nb, addRandomTile b u v = Some nb
        ∧ ((getEmptyCells b = [] ∧ nb = b)
           ∨ (tileCount nb = S (tileCount b)
              ∧ S (length (getEmptyCells nb)) = length (getEmptyCells b))).
Proof.
  intros Hu. destruct (decide (getEmptyCells b = [])) as [Hfull|Hne].
  - exists b. split; [by apply addRandomTile_full|by left].
  - destruct (addRandomTile_spawnedFrom b u v Hu Hne) as (nb & Hadd & Hsp).
    exists nb. split; [done|]. right. by apply spawnedFrom_counts.
Qed.

Lemma addRandomTile_counts_witness :
  unitDraw (1 # 2)
  ∧ ∃ nb, addRandomTile [[2; 0]; [0; 4]] (1 # 2) (1 # 2) = Some nb
          ∧ (tileCount nb = 3%nat ∨ nb = [[2; 0]; [0; 4]]).
Proof.
  split; [exact unitDraw_half|].
  destruct (addRandomTile_counts [[2; 0]; [0; 4]] (1 # 2) (1 # 2) unitDraw_half)
    as (nb & Hadd & [[_ ->]|[Ht _]]).
  - exists [[2; 0]; [0; 4]]. split; [exact Hadd|by right].
  - exists nb. split; [exact Hadd|left; exact Ht].
Defined.

Lemma initializeGame_spec (n : nat) (u1 v1 u2 v2 : Q) :
  (2 ≤ n)%nat → unitDraw u1 → unitDraw u2 →
  ∃ s, initializeGame n u1 v1 u2 v2 = Some s
       ∧ isSquare n (board s)
       ∧ tileCount (board s) = 2%nat
       ∧ allCells (λ x, x = 0 ∨ x = 2 ∨ x = 4) (board s)
       ∧ score s = 0 ∧ gameOver s = false ∧ won s = false.
Proof.
  intros Hn Hu1 Hu2. unfold initializeGame.
  pose proof (createEmptyBoard_square n) as Hsq0.
  assert (getEmptyCells (createEmptyBoard n) ≠ []) as Hne0.
  { apply getEmptyCells_nonempty. exists 0%nat, 0%nat.
    apply createEmptyBoard_cell; lia. }
  destruct (addRandomTile_spawnedFrom _ u1 v1 Hu1 Hne0) as (b1 & -> & Hsp1).
  simpl.
  assert (getEmptyCells b1 ≠ []) as Hne1.
  { apply getEmptyCells_nonempty.
    destruct Hsp1 as (i & j & val & _ & _ & _ & _ & Hother).
    destruct (decide ((0%nat, 0%nat) = (i, j))) as [Heq|Hne].
    - exists 0%nat, 1%nat. rewrite Hother by congruence.
      apply createEmptyBoard_cell; lia.
    - exists 0%nat, 0%nat. rewrite Hother by done.
      apply createEmptyBoard_cell; lia. }
  destruct (addRandomTile_spawnedFrom _ u2 v2 Hu2 Hne1) as (b2 & -> & Hsp2).
  simpl. eexists. split; [done|]. simpl.
  split; [by do 2 (eapply spawnedFrom_square; [|done])|].
  split.
  - destruct (spawnedFrom_counts _ _ Hsp1) as [Ht1 _].
    destruct (spawnedFrom_counts _ _ Hsp2) as [Ht2 _].
    unfold createEmptyBoard in Ht1. rewrite tileCount_zeros in Ht1. lia.
  - split; [|done].
    apply (spawnedFrom_allCells _ b1); [by right; left|by right; right| |done].
    apply (spawnedFrom_allCells _ (createEmptyBoard n));
      [by right; left|by right; right| |done].
    intros i j x Hx.
    destruct (cellAt_lt _ _ _ _ _ Hsq0 Hx) as [Hi Hj].
    rewrite createEmptyBoard_cell in Hx by done. left. congruence.
Qed.

(** X3: for a size of at least 2 and position draws in [0, 1),
    [initializeGame] returns a state with a square board of that size
    holding exactly two tiles, each a 2 or a 4, with score 0 and both flags
    off. *)
Theorem initializeGame_two_tiles (n : nat) (u1 v1 u2 v2 : Q) :
  (2 ≤ n)%nat → unitDraw u1 → unitDraw u2 →
  ∃ s, initializeGame n u1 v1 u2 v2 = Some s
       ∧ isSquare n (board s)
       ∧ tileCount (board s) = 2%nat
       ∧ allCells (λ x, x = 0 ∨ x = 2 ∨ x = 4) (board s)
       ∧ score s = 0 ∧ gameOver s = false ∧ won s = false.
Proof. apply initializeGame_spec. Qed.

Lemma initializeGame_two_tiles_witness :
  (2 ≤ 4)%nat ∧ unitDraw (1 # 2) ∧ unitDraw (3 # 4)
  ∧ ∃ s, initializeGame 4 (1 # 2) (1 # 2) (3 # 4) (99 # 100) = Some s
         ∧ tileCount (board s) = 2%nat.
Proof.
  assert (2 ≤ 4)%nat as Hn by lia.
  assert (unitDraw (3 # 4)) as Hu2 by (split; [discriminate|reflexivity]).
  split; [exact Hn|]. split; [exact unitDraw_half|]. split; [exact Hu2|].
  destruct (initializeGame_two_tiles 4 (1 # 2) (1 # 2) (3 # 4) (99 # 100)
              Hn unitDraw_half Hu2) as (s & Hs & _ & Ht & _).
  exists s. split; [exact Hs|exact Ht].
Defined.

(** X19: the small sizes.  On size 0 [initializeGame] returns the empty
    board, and on size 1 the board holds a single tile, the second call of
    [addRandomTile] finding the board full; neither consults the draws it
    does not need. *)
Theorem initializeGame_small (u1 v1 u2 v2 : Q) :
  unitDraw u1 →
  initializeGame 0 u1 v1 u2 v2
    = Some {| board := []; score := 0; gameOver := false; won := false |}
  ∧ initializeGame 1 u1 v1 u2 v2
      = Some {| board := [[randomValue v1]]; score := 0;
                gameOver := false; won := false |}.
Proof.
  intros Hu. split; [done|]. unfold initializeGame.
  assert (addRandomTile (createEmptyBoard 1) u1 v1 = Some [[randomValue v1]])
    as ->.
  { unfold addRandomTile. simpl.
    pose proof (randomIndex_lt u1 1 Hu) as Hlt.
    destruct (randomIndex u1 1) as [|k]; [done|lia]. }
  simpl. rewrite addRandomTile_full; [done|].
  unfold getEmptyCells. simpl.
  rewrite bool_decide_eq_false_2; [done|].
  destruct (randomValue_cases v1) as [->| ->]; lia.
Qed.

Lemma initializeGame_small_witness :
  unitDraw (1 # 2)
  ∧ initializeGame 0 (1 # 2) (1 # 2) (1 # 2) (1 # 2)
      = Some {| board := []; score := 0; gameOver := false; won := false |}
  ∧ initializeGame 1 (1 # 2) (1 # 2) (1 # 2) (1 # 2)
      = Some {| board := [[2]]; score := 0; gameOver := false; won := false |}.
Proof.
  split; [exact unitDraw_half|].
  exact (initializeGame_small (1 # 2) (1 # 2) (1 # 2) (1 # 2) unitDraw_half).
Defined.

(** * Rotation and comparison at the edges *)

(** X5: [rotateBoard] fails exactly on the empty board and on a board
    with a row shorter than its first row. *)
Theorem rotateBoard_fails_iff (b : Board) :
  rotateBoard b = None ↔
  b = [] ∨ ∃ row0 row, b !! 0%nat = Some row0 ∧ row ∈ b
                       ∧ (length row < length row0)%nat.
Proof.
  unfold rotateBoard. destruct (b !! 0%nat) as [row0|] eqn:H0;
    cbn [mbind option_bind].
  - rewrite mapM_None, Exists_exists. split.
    + intros (c & Hc%elem_of_seq & Hnone). right.
      apply fmap_None, mapM_None, Exists_exists in Hnone
        as (row & Hrow & Hlook%lookup_ge_None).
      exists row0, row. split; [done|]. split; [done|]. lia.
    + intros [->|(row0' & row & [= <-] & Hrow & Hlt)]; [done|].
      exists (length row). split; [apply elem_of_seq; lia|].
      apply fmap_None, mapM_None, Exists_exists.
      exists row. split; [done|]. by apply lookup_ge_None.
  - split; [intros _; left|done]. by destruct b.
Qed.

(** X20: when [rotateBoard] succeeds, the result has one row per column
    of the first row, each as long as the board has rows. *)
Theorem rotateBoard_dimensions (b b' : Board) :
  rotateBoard b = Some b' →
  ∃ row0, b !! 0%nat = Some row0
          ∧ length b' = length row0
          ∧ Forall (λ r, length r = length b) b'.
Proof.
  unfold rotateBoard. destruct (b !! 0%nat) as [row0|]; [|done]. simpl.
  intros Hrot. exists row0. split; [done|].
  pose proof (length_mapM _ _ _ Hrot) as Hlen. rewrite length_seq in Hlen.
  split; [done|].
  apply mapM_Some_1 in Hrot. apply list.Forall_forall.
  intros r [k Hk]%list_elem_of_lookup_1.
  destruct (Forall2_lookup_r _ _ _ _ _ Hrot Hk) as (c & _ & Hc).
  apply fmap_Some in Hc as (col & Hcol & ->).
  rewrite length_reverse. symmetry. by eapply length_mapM.
Qed.

Lemma rotateBoard_dimensions_witness :
  rotateBoard [[1; 2; 3]; [4; 5; 6]] = Some [[4; 1]; [5; 2]; [6; 3]]
  ∧ ∃ row0, [[1; 2; 3]; [4; 5; 6]] !! 0%nat = Some row0
            ∧ length [[4; 1]; [5; 2]; [6; 3]] = length row0
            ∧ Forall (λ r : list Z, length r = 2%nat) [[4; 1]; [5; 2]; [6; 3]].
Proof.
  split; [reflexivity|].
  exact (rotateBoard_dimensions [[1; 2; 3]; [4; 5; 6]] _ eq_refl).
Defined.

(** X6: on two square boards of the same size [boardsEqual] returns
    whether the boards are equal. *)
Theorem boardsEqual_decides (n : nat) (b1 b2 : Board) :
  isSquare n b1 → isSquare n b2 →
  boardsEqual b1 b2 = Some (bool_decide (b1 = b2)).
Proof. apply boardsEqual_square. Qed.

Lemma boardsEqual_decides_witness :
  isSquare 2 [[2; 4]; [0; 0]] ∧ isSquare 2 [[2; 4]; [0; 2]]
  ∧ boardsEqual [[2; 4]; [0; 0]] [[2; 4]; [0; 2]] = Some false.
Proof.
  assert (isSquare 2 [[2; 4]; [0; 0]]) as H1
    by (split; [reflexivity|repeat constructor]).
  assert (isSquare 2 [[2; 4]; [0; 2]]) as H2
    by (split; [reflexivity|repeat constructor]).
  split; [exact H1|]. split; [exact H2|].
  exact (boardsEqual_decides 2 _ _ H1 H2).
Defined.

(** X21: [boardsEqual] only walks over the cells of its first argument:
    a board compares equal to every board that extends it with further
    rows. *)
Theorem boardsEqual_prefix (b extra : Board) :
  boardsEqual b (b ++ extra) = Some true.
Proof.
  destruct (everyFrom_board b (b ++ extra) 0) as (r & Hr & Htrue).
  { rewrite length_app. simpl. lia. }
  unfold boardsEqual. rewrite Hr. f_equal. apply Htrue.
  intros i row k x Hi Hk. unfold cellAt. simpl.
  by rewrite (lookup_app_l_Some _ _ _ _ Hi).
Qed.

Lemma everyFrom_app {A} (f : nat → A → option bool) (i : nat) (l1 l2 : list A) :
  everyFrom f i (l1 ++ l2) =
    ok ← everyFrom f i l1;
    if ok : bool then everyFrom f (i + length l1) l2 else Some false.
Proof.
  revert i. induction l1 as [|x l1 IH]; intros i; simpl.
  - by rewrite Nat.add_0_r.
  - destruct (f i x) as [[]|]; simpl; [|done..].
    rewrite IH. by rewrite Nat.add_succ_comm.
Qed.

(** X22: compared against a board that lacks its last, non-empty row, a
    board makes [boardsEqual] throw: the rows before agree, and the read
    of the missing row fails. *)
Theorem boardsEqual_missing_row (b : Board) (cell : Z) (row : list Z) :
  boardsEqual (b ++ [cell :: row]) b = None.
Proof.
  unfold boardsEqual. rewrite everyFrom_app.
  pose proof (boardsEqual_refl b) as Hrefl. unfold boardsEqual in Hrefl.
  rewrite Hrefl. simpl.
  by rewrite (lookup_ge_None_2 b (length b)) by lia.
Qed.

(** * Up and down moves, column by column *)

Section columns.
Implicit Types (b : Board) (n r c : nat).

Lemma column_lookup n b c r :
  isSquare n b → (r < n)%nat → (c < n)%nat →
  column b c !! r = cellAt b r c.
Proof.
  intros Hsq Hr Hc. unfold column. rewrite list_lookup_fmap.
  destruct (square_row n b r Hsq Hr) as (row & Hrow & Hlen & Hcells).
  rewrite Hrow, <- Hcells. simpl. symmetry.
  apply list_lookup_lookup_total_lt. lia.
Qed.

Lemma length_column b c : length (column b c) = length b.
Proof. unfold column. apply length_fmap. Qed.

(** Column [c] of a rotated board is row [n-1-c] of the board. *)
Lemma column_rotSquare n b c row :
  isSquare n b → (c < n)%nat → b !! (n - 1 - c)%nat = Some row →
  column (rotSquare n b) c = row.
Proof.
  intros Hsq Hc Hrow. pose proof (rotSquare_square _ _ Hsq) as Hsq1.
  apply (list_eq_same_length _ _ n).
  - exact (isSquare_lookup _ _ _ _ Hsq Hrow).
  - rewrite length_column. by destruct Hsq1.
  - intros r x y Hr Hx Hy.
    rewrite (column_lookup n) in Hx by done.
    rewrite cellAt_rotSquare, (cellAt_row _ _ _ _ Hrow) in Hx by done.
    congruence.
Qed.

(** Column [c] of a board rotated three times is row [c] reversed. *)
Lemma column_rot3 n b c row :
  isSquare n b → (c < n)%nat → b !! c = Some row →
  column (rotSquare n (rotSquare n (rotSquare n b))) c = reverse row.
Proof.
  intros Hsq Hc Hrow.
  pose proof (rotSquare_square _ _ Hsq) as Hsq1.
  pose proof (rotSquare_square _ _ Hsq1) as Hsq2.
  pose proof (rotSquare_square _ _ Hsq2) as Hsq3.
  pose proof (isSquare_lookup _ _ _ _ Hsq Hrow) as Hlen.
  apply (list_eq_same_length _ _ n).
  - by rewrite length_reverse.
  - rewrite length_column. by destruct Hsq3.
  - intros r x y Hr Hx Hy.
    rewrite (column_lookup n) in Hx by done.
    rewrite cellAt_rot3, (cellAt_row _ _ _ _ Hrow) in Hx by done.
    rewrite reverse_lookup, Hlen in Hy by lia.
    replace (n - S r)%nat with (n - 1 - r)%nat in Hy by lia. congruence.
Qed.

(** The rows of the rotated boards are the columns of the board. *)
Lemma rotSquare_rows n b :
  rotSquare n b = (λ c, reverse (column b c)) <$> seq 0 n.
Proof. done. Qed.

Lemma rot3_rows n b :
  isSquare n b →
  rotSquare n (rotSquare n (rotSquare n b))
    = reverse (column b <$> seq 0 n).
Proof.
  intros Hsq.
  pose proof (rotSquare_square _ _ Hsq) as Hsq1.
  pose proof (rotSquare_square _ _ Hsq1) as Hsq2.
  pose proof (rotSquare_square _ _ Hsq2) as Hsq3.
  apply (list_eq_same_length _ _ n).
  - by rewrite length_reverse, length_fmap, length_seq.
  - by destruct Hsq3.
  - intros r row col Hr Hrow Hcol.
    rewrite reverse_lookup in Hcol by (rewrite length_fmap, length_seq; lia).
    rewrite length_fmap, length_seq, list_lookup_fmap, lookup_seq_lt in Hcol
      by lia.
    simpl in Hcol. injection Hcol as <-.
    pose proof (isSquare_lookup _ _ _ _ Hsq3 Hrow) as Hlen.
    apply (list_eq_same_length _ _ n); [|done|].
    { rewrite length_column. by destruct Hsq. }
    intros k x y Hk Hx Hy.
    rewrite <- (cellAt_row _ _ _ _ Hrow), cellAt_rot3 in Hx by done.
    rewrite (column_lookup n) in Hy by (done || lia).
    replace (n - S r)%nat with (n - 1 - r)%nat in Hy by lia. congruence.
Qed.

Lemma sumList_fmap_reverse {A} (f : A → Z) (l : list A) :
  sumList (f <$> reverse l) = sumList (f <$> l).
Proof. by rewrite fmap_reverse, sumList_reverse. Qed.
End columns.

(** X7: on a square board of side at least 1, the up move slides every
    column towards the top: column [c] of the result is [slideRow] of
    column [c] of the board, read from the top.  When no cell is negative
    and the cells sum to at most 2^53, the score is the sum of the scores
    of the columns, and lies between 0 and 2^53. *)
Theorem moveUp_by_columns (n : nat) (b : Board) :
  (0 < n)%nat → isSquare n b →
  ∃ b', fst <$> moveUp b = Some b'
        ∧ isSquare n b'
        ∧ (∀ c, (c < n)%nat → column b' c = (slideRow (column b c)).1)
        ∧ (safeBoard b →
           ∃ sc, snd <$> moveUp b = Some sc
                 ∧ sc = sumList ((λ c, (slideRow (column b c)).2) <$> seq 0 n)
                 ∧ 0 ≤ sc ≤ 2 ^ 53).
Proof.
  intros Hn Hsq.
  pose proof (rotSquare_square _ _ Hsq) as Hsq1.
  pose proof (rotSquare_square _ _ Hsq1) as Hsq2.
  pose proof (rotSquare_square _ _ Hsq2) as Hsq3.
  pose proof (moveLeft_square _ _ Hsq3) as HsqL.
  rewrite (moveUp_square n b Hn Hsq). simpl.
  eexists. split; [done|]. split; [by apply rotSquare_square|]. split.
  - intros c Hc. apply column_rotSquare; [done..|].
    rewrite moveLeft_rows, list_lookup_fmap, (rot3_rows n b Hsq).
    rewrite reverse_lookup by (rewrite length_fmap, length_seq; lia).
    rewrite length_fmap, length_seq, list_lookup_fmap, lookup_seq_lt by lia.
    simpl. by replace (n - S (n - 1 - c))%nat with c by lia.
  - intros Hsafe. eexists. split; [done|]. split.
    + rewrite moveLeft_snd, (rot3_rows n b Hsq).
      by rewrite sumList_fmap_reverse, <- list_fmap_compose.
    + apply safeBoard_moveLeft_range.
      by do 3 (apply safeBoard_rotSquare; [done|]).
Qed.

Lemma moveUp_by_columns_witness :
  let b := [[2; 0]; [2; 4]] in
  (0 < 2)%nat ∧ isSquare 2 b
  ∧ ∃ b', fst <$> moveUp b = Some b' ∧ column b' 0 = [4; 0].
Proof.
  intros b.
  assert (0 < 2)%nat as Hn by lia.
  assert (isSquare 2 b) as Hsq by (split; [reflexivity|repeat constructor]).
  split; [exact Hn|]. split; [exact Hsq|].
  destruct (moveUp_by_columns 2 b Hn Hsq) as (b' & Hmove & _ & Hcols & _).
  exists b'. split; [exact Hmove|]. exact (Hcols 0%nat Hn).
Defined.

(** X8: on a square board of side at least 1, the down move slides every
    column towards the bottom: column [c] of the result is column [c] of
    the board reversed, passed through [slideRow] and reversed back.  When
    no cell is negative and the cells sum to at most 2^53, the score is the
    sum of the scores of the columns, and lies between 0 and 2^53. *)
Theorem moveDown_by_columns (n : nat) (b : Board) :
  (0 < n)%nat → isSquare n b →
  ∃ b', fst <$> moveDown b = Some b'
        ∧ isSquare n b'
        ∧ (∀ c, (c < n)%nat →
                column b' c = reverse (slideRow (reverse (column b c))).1)
        ∧ (safeBoard b →
           ∃ sc, snd <$> moveDown b = Some sc
                 ∧ sc = sumList ((λ c, (slideRow (reverse (column b c))).2)
                                   <$> seq 0 n)
                 ∧ 0 ≤ sc ≤ 2 ^ 53).
Proof.
  intros Hn Hsq.
  pose proof (rotSquare_square _ _ Hsq) as Hsq1.
  pose proof (moveLeft_square _ _ Hsq1) as HsqL.
  rewrite (moveDown_square n b Hn Hsq). simpl.
  eexists. split; [done|]. split; [by do 3 apply rotSquare_square|]. split.
  - intros c Hc.
    rewrite (column_rot3 n _ c (slideRow (reverse (column b c))).1); [done..|].
    rewrite moveLeft_rows, list_lookup_fmap, rotSquare_rows.
    by rewrite list_lookup_fmap, lookup_seq_lt.
  - intros Hsafe. eexists. split; [done|]. split.
    + rewrite moveLeft_snd, rotSquare_rows. by rewrite <- list_fmap_compose.
    + by apply safeBoard_moveLeft_range, safeBoard_rotSquare.
Qed.

Lemma moveDown_by_columns_witness :
  let b := [[2; 0]; [2; 4]] in
  (0 < 2)%nat ∧ isSquare 2 b
  ∧ ∃ b', fst <$> moveDown b = Some b' ∧ column b' 0 = [0; 4].
Proof.
  intros b.
  assert (0 < 2)%nat as Hn by lia.
  assert (isSquare 2 b) as Hsq by (split; [reflexivity|repeat constructor]).
  split; [exact Hn|]. split; [exact Hsq|].
  destruct (moveDown_by_columns 2 b Hn Hsq) as (b' & Hmove & _ & Hcols & _).
  exists b'. split; [exact Hmove|]. exact (Hcols 0%nat Hn).
Defined.

(** * Sessions of the [useGame] hook *)

Section sessions.
Implicit Types (ss : Session) (gs : GameState) (r : Draws) (d : Direction).

Lemma validTile_nonneg (x : Z) : validTile x → 0 ≤ x.
Proof. intros [->|(k & Hk & ->)]; [done|]. by apply Z.pow_nonneg. Qed.

Lemma handleMove_sessionOk ss d r :
  sessionOk ss → unitDraw (pos1 r) →
  ∃ ss', handleMove ss d r = Some ss' ∧ sessionOk ss'.
Proof.
  intros (Hsize & Hsq & Hvalid & Hscore) Hu. unfold handleMove.
  destruct (makeMove_defined (boardSize ss) (gameState ss) d (pos1 r) (val1 r))
    as [gs Hgs]; [lia|done..|].
  rewrite Hgs. simpl. eexists. split; [done|].
  unfold sessionOk. simpl. split; [done|].
  destruct (makeMove_inv _ _ _ _ _ _ Hsq Hgs)
    as [->|(b' & sc & _ & Hd & _ & Hsq' & Hsp & Hsc & _)]; [done|].
  split; [by eapply spawnedFrom_square|]. split.
  - apply (spawnedFrom_allCells validTile b');
      [apply validTile_2|apply validTile_4| |done].
    apply (applyDirection_allCells _ validTile _ d b' sc Hsq);
      [by left|apply validTile_double|done..].
  - rewrite Hsc.
    assert (0 ≤ sc); [|lia].
    apply (applyDirection_gain_nonneg _ _ d b' sc Hsq); [|done].
    intros i j x Hx. apply validTile_nonneg. by eapply Hvalid.
Qed.

Lemma initializeGame_sessionOk (n : nat) r :
  (3 ≤ n ≤ 10)%nat → unitDraws r →
  ∃ gs, initializeGame n (pos1 r) (val1 r) (pos2 r) (val2 r) = Some gs
        ∧ sessionOk {| boardSize := n; gameState := gs |}.
Proof.
  intros Hn [Hu1 Hu2].
  destruct (initializeGame_spec n (pos1 r) (val1 r) (pos2 r) (val2 r))
    as (gs & Hgs & Hsq & _ & Hcells & Hscore & _); [lia|done..|].
  exists gs. split; [done|]. unfold sessionOk. simpl.
  split; [done|]. split; [done|]. split; [|lia].
  intros i j x Hx. destruct (Hcells i j x Hx) as [->|[->| ->]];
    [by left|apply validTile_2|apply validTile_4].
Qed.

Lemma dispatch_sessionOk ss e r :
  sessionOk ss → unitDraws r →
  ∃ ss', dispatch ss e r = Some ss' ∧ sessionOk ss'.
Proof.
  intros Hok [Hu1 Hu2]. destruct e as [key|d| |parsed]; simpl.
  - unfold handleKeyPress. destruct (gameOver (gameState ss)); [by exists ss|].
    destruct (keyDirection key) as [d|]; [|by exists ss].
    by apply handleMove_sessionOk.
  - by apply handleMove_sessionOk.
  - unfold handleRestart.
    destruct (initializeGame_sessionOk (boardSize ss) r) as (gs & -> & Hgs);
      [by destruct Hok|done|].
    simpl. by eexists.
  - unfold handleSizeChange. destruct parsed as [size|]; [|by exists ss].
    destruct (bool_decide (3 ≤ size) && bool_decide (size ≤ 10)) eqn:Hguard;
      [|by exists ss].
    apply andb_true_iff in Hguard as [H3%bool_decide_eq_true H10%bool_decide_eq_true].
    unfold handleBoardSizeChange.
    destruct (initializeGame_sessionOk (Z.to_nat size) r) as (gs & -> & Hgs);
      [lia|done|].
    simpl. by eexists.
Qed.

Lemma play_sessionOk ss (events : list (Event * Draws)) :
  sessionOk ss → Forall (λ er, unitDraws er.2) events →
  ∃ ss', play ss events = Some ss' ∧ sessionOk ss'.
Proof.
  intros Hok Hdraws. revert ss Hok.
  induction Hdraws as [|[e r] events Hr _ IH]; intros ss Hok; simpl.
  - by exists ss.
  - destruct (dispatch_sessionOk ss e r Hok Hr) as (ss1 & -> & Hok1).
    simpl. by apply IH.
Qed.
End sessions.

(** X17: a session started by [useGame(4)] and driven by any sequence of
    key presses, button taps, restarts and size inputs never throws, and in
    every session reached the board size lies between 3 and 10, the board
    is square of that size, every cell is empty or a power of two, and the
    score is not negative (the position draws being in [0, 1)). *)
Theorem session_invariant (r0 : Draws) (events : list (Event * Draws)) :
  unitDraws r0 → Forall (λ er, unitDraws er.2) events →
  ∃ ss, playFromStart r0 events = Some ss ∧ sessionOk ss.
Proof.
  intros Hr0 Hdraws. unfold playFromStart, useGame.
  destruct (initializeGame_sessionOk 4 r0) as (gs & -> & Hgs); [lia|done|].
  simpl. by apply play_sessionOk.
Qed.

Lemma session_invariant_witness :
  let r := {| pos1 := 1 # 2; val1 := 1 # 2; pos2 := 3 # 4; val2 := 99 # 100 |} in
  let events := [(KeyDown "ArrowLeft", r); (SizeInput (Some 5), r);
                 (Tap Up, r); (KeyDown "a", r); (NewGame, r)] in
  unitDraws r ∧ Forall (λ er, unitDraws er.2) events
  ∧ ∃ ss, playFromStart r events = Some ss ∧ sessionOk ss.
Proof.
  intros r events.
  assert (unitDraws r) as Hr
    by (split; split; (discriminate || reflexivity)).
  assert (Forall (λ er, unitDraws er.2) events) as Hall
    by (repeat constructor; (discriminate || reflexivity)).
  split; [exact Hr|]. split; [exact Hall|].
  exact (session_invariant r events Hr Hall).
Defined.

(** X18: the keyboard and the direction buttons lead to the same session:
    for an arrow key, [handleKeyPress] returns what [handleMove] returns
    for its direction, also when the game is over (the guard of the key
    handler repeats the one of [makeMove]). *)
Theorem arrow_key_is_handleMove (ss : Session) (key : string) (d : Direction)
    (r : Draws) :
  keyDirection key = Some d → handleKeyPress ss key r = handleMove ss d r.
Proof.
  intros Hkey. unfold handleKeyPress, handleMove. rewrite Hkey.
  destruct (gameOver (gameState ss)) eqn:Hover; [|done].
  unfold makeMove. rewrite Hover. simpl. by destruct ss.
Qed.

Lemma arrow_key_is_handleMove_witness :
  let r := {| pos1 := 1 # 2; val1 := 1 # 2; pos2 := 3 # 4; val2 := 99 # 100 |} in
  let ss := {| boardSize := 4; gameState := sampleState |} in
  keyDirection "ArrowLeft" = Some Left
  ∧ handleKeyPress ss "ArrowLeft" r = handleMove ss Left r.
Proof.
  intros r ss. split; [reflexivity|].
  exact (arrow_key_is_handleMove ss "ArrowLeft" Left r eq_refl).
Defined.

(** * The flags and the no-op test, as the code computes them *)

(** X23: once a tile of 2048 or more is on a square board, every move that
    [makeMove] accepts flips the [won] flag: it is set when it was off and
    cleared when it was on. *)
Theorem won_flag_flips (n : nat) (s s' : GameState) (d : Direction) (u v : Q) :
  isSquare n (board s) → makeMove s d u v = Some s' → s' ≠ s →
  hasWon (board s) = true → won s' = negb (won s).
Proof.
  intros Hsq Hmove Hne Hwon.
  pose proof (hasWon_makeMove n s s' d u v Hsq Hmove Hwon) as Hwon'.
  destruct (makeMove_inv n s d u v s' Hsq Hmove)
    as [->|(b' & sc & _ & _ & _ & _ & _ & _ & _ & ->)]; [done|].
  by rewrite Hwon', andb_true_r.
Qed.

Lemma won_flag_flips_witness :
  isSquare 4 (board wonState)
  ∧ ∃ s', makeMove wonState Left (1 # 2) (1 # 2) = Some s'
          ∧ s' ≠ wonState ∧ hasWon (board wonState) = true
          ∧ won s' = negb (won wonState).
Proof.
  assert (isSquare 4 (board wonState)) as Hsq
    by (split; [reflexivity|repeat constructor]).
  split; [exact Hsq|]. eexists. split; [reflexivity|].
  assert ({| board := [[2048; 0; 0; 0]; [0; 0; 0; 0]; [2; 0; 0; 0]; [0; 0; 0; 0]];
             score := 20480; gameOver := false; won := false |} ≠ wonState)
    as Hne by discriminate.
  split; [exact Hne|]. split; [reflexivity|].
  exact (won_flag_flips 4 wonState _ Left (1 # 2) (1 # 2)
           Hsq eq_refl Hne eq_refl).
Defined.

(** X24: on a square board [makeMove] returns the state it was given
    exactly when the game is over or the move gives back the same board;
    in every other case the returned state differs. *)
Theorem makeMove_unchanged_iff (n : nat) (s s' : GameState) (d : Direction)
    (u v : Q) :
  isSquare n (board s) → makeMove s d u v = Some s' →
  s' = s ↔
    gameOver s = true ∨ ∃ sc, applyDirection (board s) d = Some (board s, sc).
Proof.
  intros Hsq Hmove. split.
  - intros ->. unfold makeMove in Hmove.
    destruct (gameOver s) eqn:Hover; [by left|right].
    destruct (applyDirection (board s) d) as [[b' sc]|] eqn:Hd; [|done].
    pose proof (applyDirection_square _ _ _ _ _ Hsq Hd) as Hsq'.
    simpl in Hmove. rewrite (boardsEqual_square n b' (board s)) in Hmove by done.
    simpl in Hmove. case_bool_decide as Heq; [subst b'; by exists sc|].
    destruct (addRandomTile b' u v) as [nb|] eqn:Hadd; [|done].
    simpl in Hmove. exfalso.
    assert (spawnedFrom b' nb) as Hsp.
    { apply (addRandomTile_Some_spawned b' u v); [|done].
      apply getEmptyCells_nonempty.
      exact (changed_board_has_empty _ _ _ _ _ Hsq Hd Heq). }
    pose proof (spawnedFrom_boardSum _ _ Hsp) as Hsum.
    rewrite (boardSum_applyDirection _ _ _ _ _ Hsq Hd) in Hsum.
    injection Hmove as Hmove. apply (f_equal board) in Hmove.
    simpl in Hmove. rewrite Hmove in Hsum. lia.
  - intros [Hover|[sc Hd]].
    + unfold makeMove in Hmove. rewrite Hover in Hmove. congruence.
    + destruct (makeMove_inv n s d u v s' Hsq Hmove)
        as [->|(b' & sc' & _ & Hd' & Hne & _)]; [done|].
      congruence.
Qed.

Lemma makeMove_unchanged_iff_witness :
  isSquare 4 (board sampleState)
  ∧ makeMove sampleState Left (1 # 2) (1 # 2) = Some sampleNext
  ∧ (sampleNext = sampleState ↔
       gameOver sampleState = true
       ∨ ∃ sc, applyDirection (board sampleState) Left
                 = Some (board sampleState, sc)).
Proof.
  split; [exact sampleState_square|]. split; [exact sampleState_move|].
  exact (makeMove_unchanged_iff 4 sampleState sampleNext Left (1 # 2) (1 # 2)
           sampleState_square sampleState_move).
Defined.

(** * The claims about scores *)

Lemma safeRow_sample : safeRow [2; 0; 2; 4; 4].
Proof. split; [repeat constructor; discriminate|by vm_compute]. Qed.

Lemma safeBoard_sample : safeBoard (board sampleState).
Proof.
  split; [|by vm_compute].
  apply allCells_Forall. repeat constructor; discriminate.
Qed.

(** C4: [slideRow] is the single left-to-right scan of the filtered line:
    its row is the one of [reduceLine] (equal adjacent pairs become one
    doubled value, other values pass through, zeros pad the line), and the
    emitted values consume the filtered input exactly once each, so a
    doubled value is never merged again.  On a line without negative values
    summing to at most 2^53, where the additions of the code are exact, the
    score is the sum of the doubled values, as in [reduceLine].  In
    particular [2,2,2,2] gives [4,4,0,0] and [2,2,2] gives [4,2,0]. *)
Theorem slideRow_merges_once :
  (∀ row,
     let events := scanPairs (filter (λ cell, cell ≠ 0) row) in
     (slideRow row).1 = (reduceLine row).1
     ∧ (slideRow row).1 =
         (emitValue <$> events) ++ replicate (length row - length events) 0
     ∧ mjoin (emitConsumed <$> events) = filter (λ cell, cell ≠ 0) row
     ∧ (safeRow row →
        slideRow row = reduceLine row
        ∧ (slideRow row).2 = sumList (emitGain <$> events)
        ∧ 0 ≤ (slideRow row).2 ≤ 2 ^ 53))
  ∧ slideRow [2; 2; 2; 2] = ([4; 4; 0; 0], 8)
  ∧ slideRow [2; 2; 2] = ([4; 2; 0], 4).
Proof.
  split; [|split; reflexivity].
  intros row events. split; [by rewrite slideRow_reduceLine|].
  split.
  { rewrite slideRow_reduceLine. unfold reduceLine. simpl.
    by rewrite length_fmap. }
  split; [apply scanPairs_consumed|].
  intros [Hnonneg Hsum]. split; [apply slideRow_reduceLine|].
  split; [apply slideRow_snd|].
  pose proof (slideRow_gain_range row Hnonneg). lia.
Qed.

Lemma slideRow_merges_once_witness :
  safeRow [2; 0; 2; 4; 4]
  ∧ slideRow [2; 0; 2; 4; 4] = reduceLine [2; 0; 2; 4; 4]
  ∧ (slideRow [2; 0; 2; 4; 4]).2 = 12.
Proof.
  split; [exact safeRow_sample|].
  destruct (proj1 slideRow_merges_once [2; 0; 2; 4; 4]) as (_ & _ & _ & Hsafe).
  destruct (Hsafe safeRow_sample) as (Heq & Hgain & _).
  split; [exact Heq|exact Hgain].
Defined.

(** C6: the left move applies [reduceLine] to every row independently;
    the right move reverses each row, applies [reduceLine] and reverses the
    result back, which is the left move of the board with every row
    reversed, with the rows of the result reversed.  On a board without
    negative cells whose cells sum to at most 2^53, where the additions of
    the code are exact, the score gained is in both cases the sum of the
    scores of the rows. *)
Theorem moveLeft_moveRight_by_rows b :
  (moveLeft b).1 = (λ row, (reduceLine row).1) <$> b
  ∧ (moveRight b).1 = (λ row, reverse (reduceLine (reverse row)).1) <$> b
  ∧ (moveRight b).1 = reverse <$> (moveLeft (reverse <$> b)).1
  ∧ (safeBoard b →
     (moveLeft b).2 = sumList ((λ row, (reduceLine row).2) <$> b)
     ∧ (moveRight b).2 = sumList ((λ row, (reduceLine (reverse row)).2) <$> b)
     ∧ (moveRight b).2 = (moveLeft (reverse <$> b)).2
     ∧ 0 ≤ (moveLeft b).2 ≤ 2 ^ 53
     ∧ 0 ≤ (moveRight b).2 ≤ 2 ^ 53).
Proof.
  split; [|split; [|split]].
  - rewrite moveLeft_rows. apply list_fmap_ext. intros i row _.
    by rewrite slideRow_reduceLine.
  - rewrite moveRight_rows. apply list_fmap_ext. intros i row _.
    by rewrite slideRow_reduceLine.
  - by rewrite moveRight_as_moveLeft.
  - intros Hsafe.
    assert ((moveRight b).2 = (moveLeft (reverse <$> b)).2) as Hright
      by (by rewrite moveRight_as_moveLeft).
    split; [|split; [|split; [done|split]]].
    + rewrite moveLeft_snd. f_equal. apply list_fmap_ext. intros i row _.
      by rewrite slideRow_reduceLine.
    + rewrite Hright, moveLeft_snd, <- list_fmap_compose. f_equal.
      apply list_fmap_ext. intros i row _. simpl.
      by rewrite slideRow_reduceLine.
    + by apply safeBoard_moveLeft_range.
    + rewrite Hright. by apply safeBoard_moveLeft_range, safeBoard_reverse_rows.
Qed.

Lemma moveLeft_moveRight_by_rows_witness :
  safeBoard (board sampleState)
  ∧ (moveLeft (board sampleState)).2 = 4
  ∧ (moveRight (board sampleState)).2 = 4.
Proof.
  split; [exact safeBoard_sample|].
  destruct (moveLeft_moveRight_by_rows (board sampleState))
    as (_ & _ & _ & Hsafe).
  destruct (Hsafe safeBoard_sample) as (Hl & Hr & _).
  split; [rewrite Hl|rewrite Hr]; reflexivity.
Defined.

(** C8, amended: the output of [slideRow] has the same sum as the filtered
    non-zero input (and as the input line): a merge replaces two equal
    values by their sum.  On a line without negative values summing to at
    most 2^53, where the additions of the code are exact, the score gained
    is the sum of the merge results, so the output sums to the values
    passed through unmerged plus the score gained. *)
Theorem slideRow_sum_preserved row :
  let events := scanPairs (filter (λ cell, cell ≠ 0) row) in
  sumList (slideRow row).1 = sumList (filter (λ cell, cell ≠ 0) row)
  ∧ sumList (slideRow row).1 = sumList row
  ∧ (safeRow row →
     (slideRow row).2 = sumList (emitGain <$> events)
     ∧ sumList (slideRow row).1
         = sumList (emitPassed <$> events) + (slideRow row).2
     ∧ 0 ≤ (slideRow row).2 ≤ 2 ^ 53).
Proof.
  intros events.
  assert (∀ l, sumList (emitValue <$> l)
               = sumList (emitPassed <$> l) + sumList (emitGain <$> l)) as Hsplit.
  { induction l as [|[x|x] l IH]; [done|..];
      rewrite !fmap_cons, !sumList_cons, IH; simpl; lia. }
  split; [by rewrite slideRow_sum, sumList_filter_nonzero|].
  split; [apply slideRow_sum|].
  intros [Hnonneg Hsum]. split; [apply slideRow_snd|]. split.
  - rewrite slideRow_snd. fold events. rewrite <- Hsplit. unfold events.
    by rewrite slideRow_sum, scanPairs_sum, sumList_filter_nonzero.
  - pose proof (slideRow_gain_range row Hnonneg). lia.
Qed.

Lemma slideRow_sum_preserved_witness :
  safeRow [2; 0; 2; 4; 4]
  ∧ sumList (slideRow [2; 0; 2; 4; 4]).1 = 12
  ∧ (slideRow [2; 0; 2; 4; 4]).2 = 12.
Proof.
  split; [exact safeRow_sample|].
  destruct (slideRow_sum_preserved [2; 0; 2; 4; 4]) as (_ & Hout & Hsafe).
  destruct (Hsafe safeRow_sample) as (Hgain & _).
  split; [exact Hout|exact Hgain].
Defined.
